(** * The armtastic memory pool (memory_pool.hpp), embedded in Rocq.

    The allocator has three tiers: [block_pool], a fixed-size block allocator
    with an intrusive free list; [pool_set], a row of block pools with block
    sizes 4, 8, 16, ...; and [fixed_pool], which bump-allocates inside a global
    buffer and falls back on the pool set and on the heap.

    The target is a 32-bit machine (the code casts pointers to [u32] and
    [s32]): addresses, [u32] and [std::size_t] values are integers in
    [0, 2^32) and every arithmetic result is reduced explicitly. *)

From Stdlib Require Import ZArith Lia Bool String List.
From stdpp Require Import base list.

Local Open Scope Z_scope.

(** ** Machine words *)

Module word.

Definition modulus : Z := 2 ^ 32.

(** Reduction of an integer to [u32] (also: to a 32-bit address). *)
Definition wrap (z : Z) : Z := z mod modulus.

(** Reinterpretation of an integer as [s32]. *)
Definition signed (z : Z) : Z :=
  let u := wrap z in if u <? 2 ^ 31 then u else u - modulus.

(** [(n + 3) & ~3] on [std::size_t]; [~3] is the [int] -4 converted to the
    unsigned type. *)
Definition align4 (n : Z) : Z := Z.land (wrap (n + 3)) (wrap (Z.lnot 3)).

(** [&base[index]] for [u32* base]: elements are four bytes wide. *)
Definition index32 (base index : Z) : Z := wrap (base + 4 * index).

End word.

(** ** Byte-addressed memory, accessed by 32-bit little-endian words *)

Module memory.

Definition t : Type := Z -> Z.

Definition byte (m : t) (a : Z) : Z := m a mod 256.

(** [*reinterpret_cast<u32*>(p)] as an rvalue. *)
Definition load32 (m : t) (p : Z) : Z :=
  byte m p + 2 ^ 8 * byte m (p + 1) + 2 ^ 16 * byte m (p + 2)
  + 2 ^ 24 * byte m (p + 3).

(** [*reinterpret_cast<u32*>(p) = v]. *)
Definition store32 (m : t) (p v : Z) : t :=
  fun a =>
    if (p <=? a) && (a <? p + 4) then (v / 2 ^ (8 * (a - p))) mod 256
    else m a.

End memory.

(** ** Code that contains an [assertion] *)

(** Either the code ran to its end with a result, or an assertion stopped
    it. *)
Inductive outcome (A : Type) : Type :=
| Done (a : A)
| AssertionFailed.
Arguments Done {A} a.
Arguments AssertionFailed {A}.

(** Modelled from the spec: the [assertion] macro, defined in
    modules/platf_abs_layer/debug.hpp, which is not among the sources at hand.
    The specification describes it as an abort-style check that is fatal and
    never recovered from, so a failed assertion ends the computation. *)
Definition assertion (b : bool) : outcome unit :=
  if b then Done tt else AssertionFailed.

Definition obind {A B : Type} (o : outcome A) (k : A -> outcome B) : outcome B :=
  match o with
  | Done a => k a
  | AssertionFailed => AssertionFailed
  end.

(** ** block_pool: canonical fixed-sized block allocator *)

Module block_pool.

Record t : Type := mk {
  block_count : Z;
  free_count : Z;
  next_block : Z;
  buffer : Z;
  end_buffer : Z
}.

(** Address of [&buffer[block * (block_size >> 2)]]. *)
Definition block_addr (buf block_size block : Z) : Z :=
  word.index32 buf (word.wrap (block * Z.shiftr block_size 2)).

(** The [for] loop of [init], [iters] iterations starting at [block]. *)
Fixpoint thread_blocks (iters : nat) (buf block_size block : Z)
    (m : memory.t) : memory.t :=
  match iters with
  | O => m
  | S n =>
      thread_blocks n buf block_size (block + 1)
        (memory.store32 m (block_addr buf block_size block)
           (block_addr buf block_size (block + 1)))
  end.

(** [init(block_size, block_count)].  [buf] is the address returned by
    [new (sys::pool_type::fixed) u8[block_size * block_count]]; that
    operator is declared outside the sources at hand, and the contents of
    the memory it returns are whatever [m] holds there. *)
Definition init (block_size bcount buf : Z) (m : memory.t) : t * memory.t :=
  let bytes := word.wrap (block_size * bcount) in
  let m' :=
    thread_blocks (Z.to_nat (word.wrap (bcount - 1))) buf block_size 0 m in
  ({| block_count := bcount;
      free_count := bcount;
      next_block := buf;
      buffer := buf;
      end_buffer := word.wrap (buf + bytes) |}, m').

(** [alloc()]: the null pointer 0 is the failure result. *)
Definition alloc (bp : t) (m : memory.t) : Z * t :=
  if free_count bp <=? 0 then (0, bp)
  else
    (next_block bp,
     {| block_count := block_count bp;
        free_count := word.wrap (free_count bp - 1);
        next_block := memory.load32 m (next_block bp);
        buffer := buffer bp;
        end_buffer := end_buffer bp |}).

(** [dealloc(p)]. *)
Definition dealloc (bp : t) (m : memory.t) (p : Z) : outcome (t * memory.t) :=
  obind (assertion (free_count bp <? block_count bp)) (fun _ =>
  Done ({| block_count := block_count bp;
           free_count := word.wrap (free_count bp + 1);
           next_block := p;
           buffer := buffer bp;
           end_buffer := end_buffer bp |},
        memory.store32 m p (next_block bp))).

Definition in_range (bp : t) (p : Z) : bool :=
  (buffer bp <=? p) && (p <? end_buffer bp).

(** [release()] hands the buffer to [delete []] and leaves the pointer as
    it is. *)
Definition release (bp : t) : Z := buffer bp.

(** [~block_pool()]: a buffer that is not null is handed to [delete []]. *)
Definition destructor (bp : t) : list Z :=
  if buffer bp =? 0 then [] else [buffer bp].

End block_pool.

(** ** pool_set: memory pools with logarithmically increasing block size *)

Module pool_set.

(** The array [pools] together with its length [pool_count]. *)
Record t : Type := mk { pools : list block_pool.t }.

Definition pool_count (ps : t) : Z := Z.of_nat (length (pools ps)).

Definition bits_set (x : Z) : Z :=
  let x := word.wrap (x - Z.land (Z.shiftr x 1) 0x55555555) in
  let x := word.wrap (Z.land (Z.shiftr x 2) 0x33333333 + Z.land x 0x33333333) in
  let x := Z.land (word.wrap (Z.shiftr x 4 + x)) 0x0f0f0f0f in
  let x := word.wrap (x + Z.shiftr x 8) in
  let x := word.wrap (x + Z.shiftr x 16) in
  Z.land x 0x3f.

Definition integer_log (x : Z) : Z :=
  let l := word.signed (Z.land x (word.wrap (x - 1))) in
  let l := Z.lor l (word.signed (- l)) in
  let l := Z.shiftr l 31 in
  let x := Z.lor x (Z.shiftr x 1) in
  let x := Z.lor x (Z.shiftr x 2) in
  let x := Z.lor x (Z.shiftr x 4) in
  let x := Z.lor x (Z.shiftr x 8) in
  let x := Z.lor x (Z.shiftr x 16) in
  word.wrap (bits_set (Z.shiftr x 1) - l).

(** [integer_log(size) - 2] as [u32], after [size = (size + 3) & ~3]. *)
Definition pool_index (size : Z) : Z :=
  word.wrap (integer_log (word.align4 size) - 2).

(** The loop of [init]: pool [p] gets block size [4 << p] (as [u32]) and the
    buffer [new] returned for it. *)
Fixpoint init_pools (block_size : Z) (block_counts bufs : list Z)
    (m : memory.t) : list block_pool.t * memory.t :=
  match block_counts, bufs with
  | n :: block_counts', buf :: bufs' =>
      let '(bp, m1) := block_pool.init block_size n buf m in
      let '(l, m2) :=
        init_pools (word.wrap (Z.shiftl block_size 1)) block_counts' bufs' m1 in
      (bp :: l, m2)
  | _, _ => ([], m)
  end.

Definition init (block_counts bufs : list Z) (m : memory.t) : t * memory.t :=
  let '(l, m') := init_pools 4 block_counts bufs m in (mk l, m').

(** [alloc(size)]: the pointer (0 for none) and the pool set afterwards.
    [pool_index < pool_count] puts the index inside the array, so the
    lookup cannot fail. *)
Definition alloc (ps : t) (m : memory.t) (size : Z) : Z * t :=
  let pool_index := pool_index size in
  if pool_index <? pool_count ps then
    match pools ps !! Z.to_nat pool_index with
    | Some bp =>
        let '(p, bp') := block_pool.alloc bp m in
        (p, mk (<[Z.to_nat pool_index := bp']> (pools ps)))
    | None => (0, ps)
    end
  else (0, ps).

(** The loop of [dealloc], from pool number [pool] on; [rest] are the pools
    not probed yet. *)
Fixpoint dealloc_from (ps : t) (pool : nat) (rest : list block_pool.t)
    (m : memory.t) (p : Z) : outcome (bool * t * memory.t) :=
  match rest with
  | [] => Done (false, ps, m)
  | bp :: rest' =>
      if block_pool.in_range bp p then
        obind (block_pool.dealloc bp m p) (fun r =>
        Done (true, mk (<[pool := fst r]> (pools ps)), snd r))
      else dealloc_from ps (S pool) rest' m p
  end.

Definition dealloc (ps : t) (m : memory.t) (p : Z)
    : outcome (bool * t * memory.t) :=
  dealloc_from ps 0 (pools ps) m p.

(** [release()]: the buffers handed to [delete []], in order.  First
    [pools[p].release()] for every pool; then the statement
    [delete [] pools], which destroys the elements of the array, the last
    one first, before the array itself is given back.  As
    [block_pool::release()] does not reset [buffer], the destructor of a
    pool finds the pointer as [init] left it. *)
Definition release (ps : t) : list Z :=
  map block_pool.release (pools ps)
  ++ flat_map block_pool.destructor (rev (pools ps)).

End pool_set.

(** ** The size-class rule in the specification's words *)

(** "[ceil_log2(x)]: the smallest integer [k] such that [2^k >= x]." *)
Definition is_ceil_log2 (x k : Z) : Prop :=
  0 <= k /\ x <= 2 ^ k /\ forall j, 0 <= j -> x <= 2 ^ j -> k <= j.

(** "[s] rounded up to a multiple of 4": the least multiple of 4 not below
    [s]. *)
Definition is_round_up4 (s r : Z) : Prop :=
  (exists q, r = 4 * q) /\ s <= r < s + 4.

(** ** fixed_pool: the global buffer, the pool set and the heap *)

(** Modelled from the spec: [sys::pool_type::en] is declared in
    modules/platf_abs_layer/system.hpp, outside the sources at hand.  The
    strategies are the three the specification lists: size-classed
    ([logarithmic]), arena-direct ([fixed]) and [heap]. *)
Module pool_type.
Inductive en : Type := logarithmic | fixed | heap.

Definition eqb (a b : en) : bool :=
  match a, b with
  | logarithmic, logarithmic | fixed, fixed | heap, heap => true
  | _, _ => false
  end.
End pool_type.

(** Calls that leave the allocator: the general heap, [delete []] and the
    logger.  [ev_log] carries the five arguments of the format string of
    [sys::log] in [fixed_pool::alloc]. *)
Inductive event : Type :=
| ev_malloc (bytes : Z)
| ev_free (p : Z)
| ev_delete (p : Z)
| ev_delete_pools
| ev_log (type : string) (bytes : Z) (p : Z) (status : string) (fallback : string).

Definition is_log (e : event) : bool :=
  match e with ev_log _ _ _ _ _ => true | _ => false end.

Definition is_malloc (e : event) : bool :=
  match e with ev_malloc _ => true | _ => false end.

Module fixed_pool.

(** The namespace-level variables of [memory_pool], the [pool_set]
    singleton and the memory they live in. *)
Record globals : Type := mk {
  mem : memory.t;
  frag_buffer : Z;
  next : Z;
  released : bool;
  debug : bool;
  the_pool_set : pool_set.t
}.

Definition set_next (st : globals) (n : Z) : globals :=
  mk (mem st) (frag_buffer st) n (released st) (debug st) (the_pool_set st).

Definition set_released (st : globals) (b : bool) : globals :=
  mk (mem st) (frag_buffer st) (next st) b (debug st) (the_pool_set st).

Definition set_pools (st : globals) (ps : pool_set.t) (m : memory.t) : globals :=
  mk m (frag_buffer st) (next st) (released st) (debug st) ps.

(** Modelled from the spec: [sys::cas] is declared in
    modules/platf_abs_layer/system.hpp, outside the sources at hand.  It is
    the atomic compare-and-swap of the specification: the cursor is
    replaced by [desired] when it still holds [expected], and the result
    tells whether it was.  (The casts to [s32] keep the 32-bit pattern.) *)
Definition cas (st : globals) (expected desired : Z) : bool * globals :=
  if next st =? expected then (true, set_next st desired) else (false, st).

Section template.

(** The template parameter. *)
Variable PoolSize : Z.

Definition init (block_counts bufs : list Z) (st : globals) : globals :=
  let '(ps, m) := pool_set.init block_counts bufs (mem st) in
  set_pools st ps m.

(** [release()]: the flag is set, then [pool_set::release()] deletes the
    buffers (each by [block_pool::release()] and again by the destructor)
    and last gives the array [pools] back ([ev_delete_pools]). *)
Definition release (st : globals) : globals * list event :=
  (set_released st true,
   map ev_delete (pool_set.release (the_pool_set st)) ++ [ev_delete_pools]).

(** The [do ... while (0 == p)] loop of [alloc], run by one caller with
    nobody else touching [next]; [None] when [fuel] iterations do not
    leave the loop. *)
Fixpoint bump (fuel : nat) (st : globals) (alloc_bytes : Z)
    : option (Z * globals) :=
  match fuel with
  | O => None
  | S fuel' =>
      let cur_next := next st in
      let next_next := word.wrap (cur_next + alloc_bytes) in
      if next_next >? word.wrap (frag_buffer st + PoolSize) then
        Some (0, st)
      else
        let '(swapped, st') := cas st cur_next next_next in
        let p := if swapped then cur_next else 0 in
        if p =? 0 then bump fuel' st' alloc_bytes else Some (p, st')
  end.

Definition type_label (type : pool_type.en) : string :=
  if pool_type.eqb pool_type.logarithmic type then " Log "
  else if pool_type.eqb pool_type.fixed type then "Fixed"
  else "Heap ".

(** [alloc(bytes, type)].  [heap_ptr] is what [malloc] returns if it is
    called. *)
Definition alloc (fuel : nat) (heap_ptr : Z) (st : globals) (bytes : Z)
    (type : pool_type.en) : option (Z * globals * list event) :=
  let alloc_bytes := word.align4 bytes in
  let tier :=
    if pool_type.eqb pool_type.logarithmic type then
      let '(p, ps) := pool_set.alloc (the_pool_set st) (mem st) alloc_bytes in
      Some (p, set_pools st ps (mem st))
    else if pool_type.eqb pool_type.fixed type && (alloc_bytes <=? PoolSize)
    then bump fuel st alloc_bytes
    else Some (0, st) in
  match tier with
  | None => None
  | Some (p, st') =>
      let heap_fallback := p =? 0 in
      let '(p, heap_calls) :=
        if pool_type.eqb pool_type.heap type || heap_fallback
        then (heap_ptr, [ev_malloc alloc_bytes]) else (p, []) in
      let trace :=
        if debug st' then
          [ev_log (type_label type) bytes p
             (if negb (p =? 0) then "succeeded" else "failed")
             (if heap_fallback then "(fallback on heap)" else "")]
        else [] in
      Some (p, st', heap_calls ++ trace)
  end.

(** [dealloc(p)].  Inside the arena the function returns whether or not
    a pool claimed [p]; [free] is the [else] branch of the range test. *)
Definition dealloc (st : globals) (p : Z) : outcome (globals * list event) :=
  if (frag_buffer st <=? p) && (p <? word.wrap (frag_buffer st + PoolSize))
  then
    if negb (released st) then
      obind (pool_set.dealloc (the_pool_set st) (mem st) p) (fun r =>
        let '(claimed, ps, m) := r in
        if claimed then Done (set_pools st ps m, [])
        else Done (set_pools st ps m, []))
    else Done (st, [])
  else Done (st, [ev_free p]).

End template.

End fixed_pool.

(** ** Concurrent callers of the arena-direct path *)

(** Several threads run the [do ... while] loop of [fixed_pool::alloc] on the
    shared cursor [next].  A thread touches shared state twice per iteration:
    when it reads [next] and when it executes [sys::cas]; these are the
    atomic steps, and an execution is an interleaving of them. *)
Module arena_threads.

Inductive thread : Type :=
| at_read                  (* about to execute [cur_next = next] *)
| at_cas (cur_next : Z)    (* passed the bounds test, about to execute [sys::cas] *)
| returned_arena (p : Z)   (* left the loop with [p = cur_next] *)
| returned_heap.           (* left the loop by [break]: served by [malloc] *)

Definition finished (t : thread) : bool :=
  match t with
  | at_read | at_cas _ => false
  | returned_arena _ | returned_heap => true
  end.

Definition system : Type := fixed_pool.globals * list thread.

Section template.

Variable PoolSize : Z.
(** All callers request the same amount; [alloc_bytes] is that request
    after [(bytes + 3) & ~3]. *)
Variable alloc_bytes : Z.

(** A caller that passes the test [alloc_bytes <= PoolSize] enters the
    loop; any other goes to the heap at once. *)
Definition enter : thread :=
  if alloc_bytes <=? PoolSize then at_read else returned_heap.

(** One atomic step of one thread. *)
Definition thread_step (st : fixed_pool.globals) (t : thread)
    : option (fixed_pool.globals * thread) :=
  match t with
  | at_read =>
      let cur_next := fixed_pool.next st in
      let next_next := word.wrap (cur_next + alloc_bytes) in
      if next_next >? word.wrap (fixed_pool.frag_buffer st + PoolSize)
      then Some (st, returned_heap)
      else Some (st, at_cas cur_next)
  | at_cas cur_next =>
      let next_next := word.wrap (cur_next + alloc_bytes) in
      let '(swapped, st') := fixed_pool.cas st cur_next next_next in
      let p := if swapped then cur_next else 0 in
      Some (st', if p =? 0 then at_read else returned_arena p)
  | returned_arena _ | returned_heap => None
  end.

(** Thread number [i] takes a step. *)
Definition step_at (i : nat) (s : system) : option system :=
  match snd s !! i with
  | Some t =>
      match thread_step (fst s) t with
      | Some (st', t') => Some (st', <[i := t']> (snd s))
      | None => None
      end
  | None => None
  end.

(** An interleaving: the threads that step, in order. *)
Fixpoint run (schedule : list nat) (s : system) : option system :=
  match schedule with
  | [] => Some s
  | i :: schedule' =>
      match step_at i s with
      | Some s' => run schedule' s'
      | None => None
      end
  end.

End template.

End arena_threads.

(** ** Auxiliary notions for the bit-level proofs *)

(** [top_run y k m]: the highest set bit of [y] is bit [k], and the [m] bits
    from bit [k] downwards are all set. *)
Definition top_run (y k m : Z) : Prop :=
  0 < y /\ Z.log2 y = k /\
  forall i, 0 <= i -> k - m < i <= k -> Z.testbit y i = true.

(** The five [x |= x >> n] lines of [integer_log]. *)
Definition smear (x : Z) : Z :=
  let x := Z.lor x (Z.shiftr x 1) in
  let x := Z.lor x (Z.shiftr x 2) in
  let x := Z.lor x (Z.shiftr x 4) in
  let x := Z.lor x (Z.shiftr x 8) in
  Z.lor x (Z.shiftr x 16).

(** ** Call sequences on one block pool *)

(** [n] consecutive [alloc()] calls: the pointers returned, in order, and the
    pool afterwards. *)
Fixpoint alloc_many (n : nat) (bp : block_pool.t) (m : memory.t)
    : list Z * block_pool.t :=
  match n with
  | O => ([], bp)
  | S n' =>
      let '(p, bp1) := block_pool.alloc bp m in
      let '(ps, bp2) := alloc_many n' bp1 m in
      (p :: ps, bp2)
  end.

(** [dealloc(p)] for each [p] of [l], in order. *)
Fixpoint dealloc_many (l : list Z) (bp : block_pool.t) (m : memory.t)
    : outcome (block_pool.t * memory.t) :=
  match l with
  | [] => Done (bp, m)
  | p :: l' =>
      obind (block_pool.dealloc bp m p) (fun r => dealloc_many l' (fst r) (snd r))
  end.

(** ** The intrusive free list as a list of addresses *)

(** [free_chain m head l]: following the links stored in [m] from [head]
    visits the addresses [l], in order.  The link stored in the last block is
    not constrained. *)
Fixpoint free_chain (m : memory.t) (head : Z) (l : list Z) : Prop :=
  match l with
  | [] => True
  | a :: l' => head = a /\ free_chain m (memory.load32 m a) l'
  end.

(** Two four-byte link words that do not overlap. *)
Definition apart (a b : Z) : Prop := a + 4 <= b \/ b + 4 <= a.

(** Link words inside the address space that pairwise do not overlap. *)
Fixpoint spaced (l : list Z) : Prop :=
  match l with
  | [] => True
  | a :: l' => (0 < a /\ a + 4 <= 4294967296) /\ Forall (apart a) l' /\ spaced l'
  end.

(** [bp] has exactly the blocks [l] on its free list. *)
Definition pool_free_list (bp : block_pool.t) (m : memory.t) (l : list Z) : Prop :=
  free_chain m (block_pool.next_block bp) l /\
  Z.of_nat (length l) = block_pool.free_count bp /\
  block_pool.free_count bp <= block_pool.block_count bp < 4294967296 /\
  spaced l.

(** The stride between consecutive blocks that [block_pool::init] uses, in
    bytes: [block_size >> 2] elements of four bytes. *)
Definition stride (block_size : Z) : Z := 4 * (block_size / 4).

(** The blocks number [j], [j + 1], ..., [j + n - 1] of a pool. *)
Definition blocks (buf block_size : Z) (j n : nat) : list Z :=
  map (fun i => buf + Z.of_nat i * stride block_size) (seq j n).

(** ** Bookkeeping for the interleavings of [arena_threads] *)

Definition is_arena (t : arena_threads.thread) : bool :=
  match t with arena_threads.returned_arena _ => true | _ => false end.

Fixpoint count_if (f : arena_threads.thread -> bool)
    (ts : list arena_threads.thread) : Z :=
  match ts with
  | [] => 0
  | t :: ts' => (if f t then 1 else 0) + count_if f ts'
  end.

(** Number of callers that hold an arena range. *)
Definition served (ts : list arena_threads.thread) : Z := count_if is_arena ts.

(** Number of callers still in the loop. *)
Definition pending (ts : list arena_threads.thread) : Z :=
  count_if (fun t => negb (arena_threads.finished t)) ts.

(** Atomic steps a thread needs at least to leave the loop, counting a
    compare-and-swap that is bound to fail. *)
Definition debt (cursor : Z) (t : arena_threads.thread) : Z :=
  match t with
  | arena_threads.at_read => 2
  | arena_threads.at_cas c => if c =? cursor then 1 else 3
  | _ => 0
  end.

Fixpoint debts (cursor : Z) (ts : list arena_threads.thread) : Z :=
  match ts with
  | [] => 0
  | t :: ts' => debt cursor t + debts cursor ts'
  end.

(** The quantity that every atomic step decreases. *)
Definition potential (s : arena_threads.system) : Z :=
  debts (fixed_pool.next (fst s)) (snd s) + pending (snd s) * pending (snd s).

(** What holds of every state that [n] callers of [r] bytes each can reach
    from cursor [c0] in an arena ending at [frag + size]. *)
Definition reachable_inv (size frag c0 r : Z) (n : nat)
    (s : arena_threads.system) : Prop :=
  length (snd s) = n /\
  fixed_pool.frag_buffer (fst s) = frag /\
  fixed_pool.next (fst s) = c0 + r * served (snd s) /\
  Forall (fun t =>
            match t with
            | arena_threads.returned_heap => False
            | arena_threads.returned_arena p =>
                c0 <= p /\ p + r <= fixed_pool.next (fst s)
            | arena_threads.at_cas c => c <= fixed_pool.next (fst s)
            | arena_threads.at_read => True
            end) (snd s) /\
  (forall i j p q, i <> j ->
     snd s !! i = Some (arena_threads.returned_arena p) ->
     snd s !! j = Some (arena_threads.returned_arena q) ->
     p + r <= q \/ q + r <= p).

(** ** Concrete configurations used in the examples *)

Definition zero_memory : memory.t := fun _ => 0.

(** A pool of two four-byte blocks at addresses 16 and 20, both free. *)
Definition two_block_pool : block_pool.t := block_pool.mk 2 2 16 16 24.

Definition two_block_memory : memory.t := memory.store32 zero_memory 16 20.

(** An arena of 1024 bytes at address 1000 whose first 16 bytes back a pool
    of four four-byte blocks; the block at 1000 is allocated, the other
    three are free. *)
Definition small_arena : fixed_pool.globals :=
  fixed_pool.mk
    (memory.store32 (memory.store32 zero_memory 1004 1008) 1008 1012)
    1000 1016 false true
    (pool_set.mk [block_pool.mk 4 3 1004 1000 1016]).

(** An arena at address 1000 with nothing allocated and no pools. *)
Definition empty_arena : fixed_pool.globals :=
  fixed_pool.mk zero_memory 1000 1000 false true (pool_set.mk []).


(** ** A client of one block pool *)

(** What a client does with a pool: it calls [alloc()], it calls [dealloc]
    on an address, or it writes a word of its own data at the start of a
    block. *)
Inductive pool_call : Type :=
| call_alloc
| call_dealloc (p : Z)
| call_store (p v : Z).

(** How a sequence of calls ends: the client broke the contract of the pool
    (it freed or wrote a block it does not hold), an assertion stopped the
    pool, or all calls were made; [held] are the blocks the client holds
    then. *)
Inductive client_result : Type :=
| contract_broken
| pool_aborted
| calls_done (bp : block_pool.t) (m : memory.t) (held : list Z).

Fixpoint remove_first (p : Z) (l : list Z) : list Z :=
  match l with
  | [] => []
  | a :: l' => if a =? p then l' else a :: remove_first p l'
  end.

(** The calls are made on the pool in order.  The list [held] is kept
    beside the pool to tell which calls respect the contract; the pool's
    code does not see it. *)
Fixpoint client (calls : list pool_call) (bp : block_pool.t) (m : memory.t)
    (held : list Z) : client_result :=
  match calls with
  | [] => calls_done bp m held
  | call_alloc :: calls' =>
      let '(p, bp') := block_pool.alloc bp m in
      client calls' bp' m (if p =? 0 then held else p :: held)
  | call_dealloc p :: calls' =>
      if existsb (Z.eqb p) held then
        match block_pool.dealloc bp m p with
        | Done (bp', m') => client calls' bp' m' (remove_first p held)
        | AssertionFailed => pool_aborted
        end
      else contract_broken
  | call_store p v :: calls' =>
      if existsb (Z.eqb p) held then
        client calls' bp (memory.store32 m p v) held
      else contract_broken
  end.

(** ** Population count *)

(** The number of set bits among the [n] lowest bits of [x]. *)
Fixpoint popcount (n : nat) (x : Z) : Z :=
  match n with
  | O => 0
  | S n' => x mod 2 + popcount n' (x / 2)
  end.

(** Auxiliary notions for the proof that [bits_set] counts bits.  The first
    two lines of [bits_set] without the reductions to 32 bits, for any
    mask: *)
Definition pair_sums (mask x : Z) : Z := x - Z.land (Z.shiftr x 1) mask.

Definition nibble_sums (mask y : Z) : Z :=
  Z.land (Z.shiftr y 2) mask + Z.land y mask.

(** The masks [0x5...5] and [0x3...3] of [n] hexadecimal digits. *)
Fixpoint fives (n : nat) : Z :=
  match n with O => 0 | S n' => 5 + 16 * fives n' end.

Fixpoint threes (n : nat) : Z :=
  match n with O => 0 | S n' => 3 + 16 * threes n' end.

(** The word whose [n] hexadecimal digits are the bit counts of the digits
    of [x]. *)
Fixpoint digit_counts (n : nat) (x : Z) : Z :=
  match n with
  | O => 0
  | S n' => popcount 4 (x mod 16) + 16 * digit_counts n' (x / 16)
  end.

(** The remaining lines of [bits_set], as the code has them. *)
Definition add_up (y : Z) : Z :=
  let x := Z.land (word.wrap (Z.shiftr y 4 + y)) 0x0f0f0f0f in
  let x := word.wrap (x + Z.shiftr x 8) in
  let x := word.wrap (x + Z.shiftr x 16) in
  Z.land x 0x3f.

(** The number of [i < n] with bit [i] of [x] set. *)
Fixpoint count_set_bits (n : nat) (x : Z) : Z :=
  match n with
  | O => 0
  | S n' => count_set_bits n' x + Z.b2z (Z.testbit x (Z.of_nat n'))
  end.

(** ** Interleavings without the assumption that all requests fit *)


(** ** The pool set from [init] on *)






(** ** [block_pool::init] with its stores checked *)

(** The loop of [init] on a buffer of [bytes] bytes at [buf], with every
    store checked against the buffer: the result is [None] as soon as a
    link word would be written outside of it. *)
Fixpoint thread_blocks_checked (iters : nat) (buf bytes block_size block : Z)
    (m : memory.t) : option memory.t :=
  match iters with
  | O => Some m
  | S n =>
      let a := block_pool.block_addr buf block_size block in
      if (buf <=? a) && (a + 4 <=? buf + bytes) then
        thread_blocks_checked n buf bytes block_size (block + 1)
          (memory.store32 m a
             (block_pool.block_addr buf block_size (block + 1)))
      else None
  end.

(** [init(block_size, block_count)] with the stores of its loop checked
    against the [block_size * block_count] bytes asked of [new]. *)
Definition init_checked (block_size bcount buf : Z) (m : memory.t)
    : option (block_pool.t * memory.t) :=
  let bytes := word.wrap (block_size * bcount) in
  match
    thread_blocks_checked (Z.to_nat (word.wrap (bcount - 1))) buf bytes
      block_size 0 m
  with
  | Some m' =>
      Some ({| block_pool.block_count := bcount;
               block_pool.free_count := bcount;
               block_pool.next_block := buf;
               block_pool.buffer := buf;
               block_pool.end_buffer := word.wrap (buf + bytes) |}, m')
  | None => None
  end.
(** * Machine-word and bit-level facts *)

Lemma modulus_eq : word.modulus = 4294967296.
Proof. reflexivity. Qed.

Lemma wrap_small z : 0 <= z < 4294967296 -> word.wrap z = z.
Proof. intros H. unfold word.wrap. rewrite modulus_eq. apply Z.mod_small; lia. Qed.

Lemma wrap_range z : 0 <= word.wrap z < 4294967296.
Proof. unfold word.wrap. rewrite modulus_eq. apply Z.mod_pos_bound; lia. Qed.

Lemma signed_range z : - 2147483648 <= word.signed z < 2147483648.
Proof.
  unfold word.signed. pose proof (wrap_range z) as H.
  rewrite modulus_eq. change (2 ^ 31) with 2147483648.
  destruct (word.wrap z <? 2147483648) eqn:E;
    [apply Z.ltb_lt in E | apply Z.ltb_ge in E]; lia.
Qed.

Lemma signed_zero_iff z : 0 <= z < 4294967296 -> (word.signed z = 0 <-> z = 0).
Proof.
  intros H. unfold word.signed. rewrite wrap_small by lia.
  rewrite modulus_eq. change (2 ^ 31) with 2147483648.
  destruct (z <? 2147483648) eqn:E;
    [apply Z.ltb_lt in E | apply Z.ltb_ge in E]; lia.
Qed.

(** Arithmetic shift by 31 of an [s32] extracts the sign. *)
Lemma shiftr31_sign l :
  - 2147483648 <= l < 2147483648 ->
  Z.shiftr l 31 = if l <? 0 then -1 else 0.
Proof.
  intros H. rewrite Z.shiftr_div_pow2 by lia. change (2 ^ 31) with 2147483648.
  destruct (l <? 0) eqn:E; [apply Z.ltb_lt in E | apply Z.ltb_ge in E].
  - symmetry. apply Z.div_unique with (r := l + 2147483648); lia.
  - apply Z.div_small; lia.
Qed.

(** The idiom [l |= -l; l >>= 31] yields -1 for a non-zero [l] and 0 for 0. *)
Lemma sign_mask l :
  - 2147483648 <= l < 2147483648 ->
  Z.shiftr (Z.lor l (word.signed (- l))) 31 = if l =? 0 then 0 else -1.
Proof.
  intros H. rewrite Z.shiftr_lor.
  rewrite (shiftr31_sign l) by lia.
  rewrite (shiftr31_sign (word.signed (- l))) by apply signed_range.
  destruct (l =? 0) eqn:E0; [apply Z.eqb_eq in E0 | apply Z.eqb_neq in E0].
  - subst l. reflexivity.
  - destruct (l <? 0) eqn:E; [apply Z.ltb_lt in E | apply Z.ltb_ge in E].
    + destruct (word.signed (- l) <? 0); reflexivity.
    + assert (Hs : word.signed (- l) = - l).
      { unfold word.signed, word.wrap. rewrite modulus_eq.
        change (2 ^ 31) with 2147483648.
        replace (- l mod 4294967296) with (4294967296 - l).
        - destruct (4294967296 - l <? 2147483648) eqn:E1;
            [apply Z.ltb_lt in E1 | apply Z.ltb_ge in E1]; lia.
        - apply Z.mod_unique with (q := -1); lia. }
      rewrite Hs.
      destruct (- l <? 0) eqn:E1; [reflexivity | apply Z.ltb_ge in E1; lia].
Qed.

(** A positive [x] is a power of two exactly when [x & (x - 1)] is zero. *)
Lemma land_pred_pow2 k : 0 <= k -> Z.land (2 ^ k) (2 ^ k - 1) = 0.
Proof.
  intros Hk.
  replace (2 ^ k - 1) with (Z.ones k) by (rewrite Z.ones_equiv; lia).
  rewrite Z.land_ones by lia.
  apply Z.mod_same. apply Z.pow_nonzero; lia.
Qed.

Lemma land_pred_nonzero x :
  0 < x -> x <> 2 ^ Z.log2 x -> Z.land x (x - 1) <> 0.
Proof.
  intros Hx Hne.
  destruct (Z.log2_spec x Hx) as [Hlo Hhi].
  set (k := Z.log2 x) in *.
  assert (Hk : 0 <= k) by apply Z.log2_nonneg.
  assert (Hk1 : Z.log2 (x - 1) = k).
  { apply Z.log2_unique; [lia |]. rewrite <- Z.add_1_r. fold (Z.succ k) in Hhi. lia. }
  intros H0.
  assert (Hb : Z.testbit (Z.land x (x - 1)) k = true).
  { rewrite Z.land_spec. unfold k at 1. rewrite Z.bit_log2 by lia.
    rewrite <- Hk1. rewrite Z.bit_log2 by lia. reflexivity. }
  rewrite H0, Z.bits_0 in Hb. discriminate.
Qed.

(** ** Bit smearing and population count *)

Lemma top_run_init x : 0 < x -> top_run x (Z.log2 x) 1.
Proof.
  intros Hx. repeat split; [lia |].
  intros i Hi Hr. assert (i = Z.log2 x) as -> by lia.
  apply Z.bit_log2; lia.
Qed.

Lemma top_run_step y k m s :
  top_run y k m -> 0 < s <= m -> top_run (Z.lor y (Z.shiftr y s)) k (m + s).
Proof.
  intros (Hy & Hk & Hrun) Hs.
  assert (Hk0 : 0 <= k) by (rewrite <- Hk; apply Z.log2_nonneg).
  assert (Hsh : 0 <= Z.shiftr y s) by (apply Z.shiftr_nonneg; lia).
  repeat split.
  - assert (0 <= Z.lor y (Z.shiftr y s)) by (apply Z.lor_nonneg; lia).
    assert (Z.lor y (Z.shiftr y s) <> 0).
    { intros H0. apply Z.lor_eq_0_iff in H0. lia. }
    lia.
  - rewrite Z.log2_lor by lia. rewrite Z.log2_shiftr by lia. lia.
  - intros i Hi Hr. rewrite Z.lor_spec, Z.shiftr_spec by lia.
    destruct (Z_lt_dec (k - m) i) as [Hin | Hout].
    + rewrite Hrun by lia. reflexivity.
    + rewrite (Hrun (i + s)) by lia. apply orb_true_r.
Qed.

Lemma top_run_full y k m : top_run y k m -> k < m -> y = Z.ones (k + 1).
Proof.
  intros (Hy & Hk & Hrun) Hm.
  assert (Hk0 : 0 <= k) by (rewrite <- Hk; apply Z.log2_nonneg).
  apply Z.bits_inj'. intros i Hi.
  destruct (Z_le_dec i k) as [Hle | Hgt].
  - rewrite Hrun by lia. symmetry. apply Z.ones_spec_low. lia.
  - rewrite Z.bits_above_log2 by lia. symmetry. apply Z.ones_spec_high. lia.
Qed.

Lemma log2_u32 x : 0 < x < 4294967296 -> 0 <= Z.log2 x <= 31.
Proof.
  intros Hx. split; [apply Z.log2_nonneg |].
  assert (Z.log2 x < 32); [| lia].
  apply Z.log2_lt_pow2; [lia |]. change (2 ^ 32) with 4294967296. lia.
Qed.

Lemma smear_ones x :
  0 < x < 4294967296 -> smear x = Z.ones (Z.log2 x + 1).
Proof.
  intros Hx. pose proof (log2_u32 x Hx) as Hk.
  apply top_run_full with (m := 32); [| lia].
  unfold smear.
  change 32 with (1 + 1 + 2 + 4 + 8 + 16).
  repeat (apply top_run_step; [| lia]).
  apply top_run_init. lia.
Qed.

Lemma u32_log2_cases k :
  0 <= k <= 31 ->
  k = 0 \/ k = 1 \/ k = 2 \/ k = 3 \/ k = 4 \/ k = 5 \/ k = 6 \/ k = 7 \/
  k = 8 \/ k = 9 \/ k = 10 \/ k = 11 \/ k = 12 \/ k = 13 \/ k = 14 \/ k = 15 \/
  k = 16 \/ k = 17 \/ k = 18 \/ k = 19 \/ k = 20 \/ k = 21 \/ k = 22 \/ k = 23 \/
  k = 24 \/ k = 25 \/ k = 26 \/ k = 27 \/ k = 28 \/ k = 29 \/ k = 30 \/ k = 31.
Proof. lia. Qed.

(** Population count of the smeared word, shifted once: the position of the
    highest set bit. *)
Lemma bits_set_ones k :
  0 <= k <= 31 -> pool_set.bits_set (Z.shiftr (Z.ones (k + 1)) 1) = k.
Proof.
  intros Hk. pose proof (u32_log2_cases k Hk) as Hc.
  repeat (destruct Hc as [-> | Hc]; [vm_compute; reflexivity |]).
  subst k. vm_compute. reflexivity.
Qed.

Lemma land_le x y : 0 <= x -> Z.land x y <= x.
Proof.
  intros Hx. apply Z.ldiff_le; [assumption |].
  apply Z.bits_inj'. intros i Hi.
  rewrite Z.ldiff_spec, Z.land_spec, Z.bits_0.
  destruct (Z.testbit x i), (Z.testbit y i); reflexivity.
Qed.

(** ** What [integer_log] computes *)

Lemma integer_log_smear x :
  pool_set.integer_log x =
    let l := word.signed (Z.land x (word.wrap (x - 1))) in
    word.wrap (pool_set.bits_set (Z.shiftr (smear x) 1)
               - Z.shiftr (Z.lor l (word.signed (- l))) 31).
Proof. reflexivity. Qed.

Lemma integer_log_value x :
  0 < x < 4294967296 ->
  pool_set.integer_log x =
    Z.log2 x + (if x =? 2 ^ Z.log2 x then 0 else 1).
Proof.
  intros Hx. pose proof (log2_u32 x Hx) as Hk.
  rewrite integer_log_smear. cbv zeta.
  rewrite smear_ones, bits_set_ones by lia.
  rewrite (wrap_small (x - 1)) by lia.
  set (v := Z.land x (x - 1)).
  assert (Hv : 0 <= v < 4294967296).
  { assert (0 <= v) by (apply Z.land_nonneg; lia).
    assert (v <= x) by (apply land_le; lia). lia. }
  rewrite sign_mask by apply signed_range.
  destruct (x =? 2 ^ Z.log2 x) eqn:Ep;
    [apply Z.eqb_eq in Ep | apply Z.eqb_neq in Ep].
  - assert (v = 0) as ->.
    { unfold v. rewrite Ep at 1 2. apply land_pred_pow2. lia. }
    change (word.signed 0 =? 0) with true. cbv iota.
    rewrite Z.sub_0_r, Z.add_0_r. apply wrap_small. lia.
  - assert (Hnz : v <> 0) by (apply land_pred_nonzero; [lia | assumption]).
    destruct (word.signed v =? 0) eqn:Es.
    + apply Z.eqb_eq in Es. apply (proj1 (signed_zero_iff v Hv)) in Es.
      contradiction.
    + replace (Z.log2 x - -1) with (Z.log2 x + 1) by lia. apply wrap_small. lia.
Qed.

(** [integer_log] is the ceiling of the binary logarithm on every non-zero
    32-bit word. *)
Lemma integer_log_ceil x :
  0 < x < 4294967296 -> is_ceil_log2 x (pool_set.integer_log x).
Proof.
  intros Hx. pose proof (log2_u32 x Hx) as Hk.
  destruct (Z.log2_spec x) as [Hlo Hhi]; [lia |].
  rewrite integer_log_value by assumption.
  destruct (x =? 2 ^ Z.log2 x) eqn:Ep;
    [apply Z.eqb_eq in Ep | apply Z.eqb_neq in Ep].
  - rewrite Z.add_0_r. repeat split; [lia | lia |].
    intros j Hj Hle.
    destruct (Z_le_dec (Z.log2 x) j) as [| Hlt]; [assumption |].
    assert (2 ^ j < 2 ^ Z.log2 x) by (apply Z.pow_lt_mono_r; lia). lia.
  - repeat split; [lia | fold (Z.succ (Z.log2 x)); lia |].
    intros j Hj Hle.
    destruct (Z_le_dec (Z.log2 x + 1) j) as [| Hlt]; [assumption |].
    assert (2 ^ j <= 2 ^ Z.log2 x) by (apply Z.pow_le_mono_r; lia). lia.
Qed.

Lemma is_ceil_log2_unique x k1 k2 :
  is_ceil_log2 x k1 -> is_ceil_log2 x k2 -> k1 = k2.
Proof.
  intros (H1 & H2 & H3) (H4 & H5 & H6).
  pose proof (H3 k2 H4 H5). pose proof (H6 k1 H1 H2). lia.
Qed.

Lemma integer_log_pow2 k : 0 <= k <= 31 -> pool_set.integer_log (2 ^ k) = k.
Proof.
  intros Hk.
  assert (Hp : 0 < 2 ^ k < 4294967296).
  { split; [apply Z.pow_pos_nonneg; lia |].
    change 4294967296 with (2 ^ 32). apply Z.pow_lt_mono_r; lia. }
  apply (is_ceil_log2_unique (2 ^ k)); [apply integer_log_ceil; assumption |].
  repeat split; [lia | lia |].
  intros j Hj Hle. apply Z.pow_le_mono_r_iff in Hle; lia.
Qed.

Lemma integer_log_zero : pool_set.integer_log 0 = 0.
Proof. reflexivity. Qed.

(** ** Rounding to a multiple of four *)

Lemma land_clear2 y :
  0 <= y < 4294967296 -> Z.land y 4294967292 = 4 * (y / 4).
Proof.
  intros Hy.
  replace (4 * (y / 4)) with (Z.shiftl (Z.shiftr y 2) 2)
    by (rewrite Z.shiftl_mul_pow2, Z.shiftr_div_pow2 by lia;
        change (2 ^ 2) with 4; lia).
  change 4294967292 with (Z.shiftl (Z.ones 30) 2).
  apply Z.bits_inj'. intros i Hi.
  rewrite Z.land_spec, !Z.shiftl_spec by lia.
  destruct (Z_lt_dec i 2) as [Hlo | Hhi].
  - rewrite (Z.testbit_neg_r (Z.ones 30)), (Z.testbit_neg_r (Z.shiftr y 2)) by lia.
    apply andb_false_r.
  - rewrite Z.shiftr_spec by lia. replace (i - 2 + 2) with i by lia.
    destruct (Z_lt_dec i 32) as [Hin | Hout].
    + rewrite Z.ones_spec_low by lia. apply andb_true_r.
    + rewrite Z.ones_spec_high by lia.
      destruct (Z.eq_dec y 0) as [-> | Hnz]; [rewrite Z.bits_0; reflexivity |].
      rewrite Z.bits_above_log2; [reflexivity | lia |].
      pose proof (log2_u32 y). lia.
Qed.

Lemma align4_value s :
  0 <= s <= 4294967292 -> word.align4 s = 4 * ((s + 3) / 4).
Proof.
  intros Hs. unfold word.align4.
  rewrite (wrap_small (s + 3)) by lia.
  change (word.wrap (Z.lnot 3)) with 4294967292.
  apply land_clear2. lia.
Qed.

Lemma align4_is_round_up s :
  0 <= s <= 4294967292 -> is_round_up4 s (word.align4 s).
Proof.
  intros Hs. rewrite align4_value by assumption.
  unfold is_round_up4. split; [exists ((s + 3) / 4); lia |].
  pose proof (Z.div_mod (s + 3) 4 ltac:(lia)).
  pose proof (Z.mod_pos_bound (s + 3) 4 ltac:(lia)). lia.
Qed.

Lemma align4_wraps s :
  4294967292 < s < 4294967296 -> word.align4 s = 0.
Proof.
  intros Hs.
  assert (s = 4294967293 \/ s = 4294967294 \/ s = 4294967295) as [-> | [-> | ->]]
    by lia; reflexivity.
Qed.

(** ** Size-class routing of [pool_set::alloc] *)

Lemma pool_index_value s :
  1 <= s <= 4294967292 ->
  pool_set.pool_index s = pool_set.integer_log (word.align4 s) - 2
  /\ 0 <= pool_set.integer_log (word.align4 s) - 2 <= 30.
Proof.
  intros Hs.
  destruct (align4_is_round_up s) as [[q Hq] Hr]; [lia |].
  assert (Hx : 0 < word.align4 s < 4294967296) by lia.
  pose proof (integer_log_ceil _ Hx) as (Hk0 & Hk1 & Hk2).
  set (k := pool_set.integer_log (word.align4 s)) in *.
  assert (2 <= k).
  { destruct (Z_le_dec 2 k); [assumption |].
    assert (2 ^ k <= 2 ^ 1) by (apply Z.pow_le_mono_r; lia).
    change (2 ^ 1) with 2 in *. lia. }
  assert (k <= 32).
  { apply Hk2; [lia |]. change (2 ^ 32) with 4294967296. lia. }
  unfold pool_set.pool_index. fold k. rewrite wrap_small by lia. lia.
Qed.

Lemma pool_index_of_class s i :
  1 <= s <= 4294967292 -> 0 <= i -> 2 * 2 ^ i < s <= 4 * 2 ^ i ->
  pool_set.pool_index s = i.
Proof.
  intros Hs Hi Hc.
  destruct (pool_index_value s Hs) as [-> _].
  destruct (align4_is_round_up s) as [[q Hq] Hr]; [lia |].
  assert (Hx : 0 < word.align4 s < 4294967296) by lia.
  assert (Hk : pool_set.integer_log (word.align4 s) = i + 2); [| lia].
  apply (is_ceil_log2_unique (word.align4 s));
    [apply integer_log_ceil; assumption |].
  assert (Hp : 2 ^ (i + 2) = 4 * 2 ^ i)
    by (rewrite Z.pow_add_r by lia; change (2 ^ 2) with 4; lia).
  repeat split; [lia | rewrite Hp; lia |].
  intros j Hj Hle.
  destruct (Z_le_dec (i + 2) j) as [| Hlt]; [assumption |].
  assert (2 ^ j <= 2 ^ (i + 1)) by (apply Z.pow_le_mono_r; lia).
  assert (2 ^ (i + 1) = 2 * 2 ^ i)
    by (rewrite Z.pow_add_r by lia; change (2 ^ 1) with 2; lia).
  lia.
Qed.

Lemma alloc_routes ps m s bp :
  pool_set.pool_index s < pool_set.pool_count ps ->
  pool_set.pools ps !! Z.to_nat (pool_set.pool_index s) = Some bp ->
  pool_set.alloc ps m s =
    (fst (block_pool.alloc bp m),
     pool_set.mk (<[Z.to_nat (pool_set.pool_index s) :=
                      snd (block_pool.alloc bp m)]> (pool_set.pools ps))).
Proof.
  intros Hlt Hbp. unfold pool_set.alloc.
  apply Z.ltb_lt in Hlt. rewrite Hlt, Hbp.
  destruct (block_pool.alloc bp m); reflexivity.
Qed.

Lemma alloc_out_of_classes ps m s :
  pool_set.pool_count ps <= pool_set.pool_index s ->
  pool_set.alloc ps m s = (0, ps).
Proof.
  intros Hge. unfold pool_set.alloc.
  apply Z.ltb_ge in Hge. rewrite Hge. reflexivity.
Qed.

Lemma pools_lookup ps i :
  0 <= i < pool_set.pool_count ps ->
  exists bp, pool_set.pools ps !! Z.to_nat i = Some bp.
Proof.
  intros Hi. unfold pool_set.pool_count in Hi.
  destruct (lookup_lt_is_Some_2 (pool_set.pools ps) (Z.to_nat i)) as [bp Hbp];
    [lia | eauto].
Qed.

(** C1 (as amended): for every request size [s] with [1 <= s <= 2^32 - 4]
    (the sizes whose round-up fits the 32-bit size type), [pool_set::alloc]
    rounds [s] up to the next multiple of 4, computes with [integer_log] the
    smallest [k] with [2^k >= rounded] (the exponent itself when the rounded
    size is a power of two) and uses pool index [k - 2]; a size
    with [4*2^(i-1) < s <= 4*2^i] and [i] in [0, pool_count) is served by
    [pools[i].alloc()], and a size whose index is not below [pool_count]
    returns none and leaves the pool set alone. *)
Theorem size_class_mapping (ps : pool_set.t) (m : memory.t) (s : Z) :
  1 <= s <= 4294967292 ->
  is_round_up4 s (word.align4 s) /\
  is_ceil_log2 (word.align4 s) (pool_set.integer_log (word.align4 s)) /\
  (forall k, 0 <= k -> word.align4 s = 2 ^ k ->
     pool_set.integer_log (word.align4 s) = k) /\
  pool_set.pool_index s = pool_set.integer_log (word.align4 s) - 2 /\
  0 <= pool_set.pool_index s /\
  (forall i, 0 <= i < pool_set.pool_count ps ->
     2 * 2 ^ i < s <= 4 * 2 ^ i ->
     pool_set.pool_index s = i /\
     exists bp, pool_set.pools ps !! Z.to_nat i = Some bp /\
       pool_set.alloc ps m s =
         (fst (block_pool.alloc bp m),
          pool_set.mk (<[Z.to_nat i := snd (block_pool.alloc bp m)]>
                         (pool_set.pools ps)))) /\
  (pool_set.pool_count ps <= pool_set.pool_index s ->
     pool_set.alloc ps m s = (0, ps)).
Proof.
  intros Hs.
  destruct (pool_index_value s Hs) as [Hidx Hrange].
  destruct (align4_is_round_up s) as [[q Hq] Hr]; [lia |].
  split; [apply align4_is_round_up; lia |].
  split; [apply integer_log_ceil; lia |].
  split.
  { intros k Hk Hpow. rewrite Hpow. apply integer_log_pow2.
    split; [assumption |].
    assert (k < 32); [| lia].
    apply (Z.pow_lt_mono_r_iff 2); [lia | lia |].
    change (2 ^ 32) with 4294967296. lia. }
  split; [assumption |].
  split; [lia |].
  split; [| apply alloc_out_of_classes].
  intros i Hi Hc.
  assert (Hpi : pool_set.pool_index s = i) by (apply pool_index_of_class; lia).
  split; [assumption |].
  destruct (pools_lookup ps i Hi) as [bp Hbp].
  exists bp. split; [assumption |].
  rewrite <- Hpi in *. apply alloc_routes; [lia | assumption].
Qed.

(** * Memory *)

Lemma byte_range m a : 0 <= memory.byte m a < 256.
Proof. unfold memory.byte. apply Z.mod_pos_bound. lia. Qed.

Lemma load32_range m p : 0 <= memory.load32 m p < 4294967296.
Proof.
  unfold memory.load32.
  pose proof (byte_range m p). pose proof (byte_range m (p + 1)).
  pose proof (byte_range m (p + 2)). pose proof (byte_range m (p + 3)).
  change (2 ^ 8) with 256. change (2 ^ 16) with 65536.
  change (2 ^ 24) with 16777216. lia.
Qed.

Lemma byte_store32_in m p v i :
  0 <= i < 4 ->
  memory.byte (memory.store32 m p v) (p + i) = (v / 2 ^ (8 * i)) mod 256.
Proof.
  intros Hi. unfold memory.byte, memory.store32.
  replace ((p <=? p + i) && (p + i <? p + 4)) with true
    by (symmetry; apply andb_true_intro; split;
        [apply Z.leb_le | apply Z.ltb_lt]; lia).
  replace (p + i - p) with i by lia.
  apply Z.mod_mod. lia.
Qed.

Lemma byte_store32_out m p v a :
  a < p \/ p + 4 <= a ->
  memory.byte (memory.store32 m p v) a = memory.byte m a.
Proof.
  intros Ha. unfold memory.byte, memory.store32.
  replace ((p <=? a) && (a <? p + 4)) with false; [reflexivity |].
  symmetry. apply andb_false_iff.
  destruct Ha; [left; apply Z.leb_gt | right; apply Z.ltb_ge]; lia.
Qed.

Lemma load32_store32_same m p v :
  0 <= v < 4294967296 -> memory.load32 (memory.store32 m p v) p = v.
Proof.
  intros Hv. unfold memory.load32.
  replace p with (p + 0) at 2 by lia.
  rewrite !byte_store32_in by lia.
  change (2 ^ (8 * 0)) with 1. change (2 ^ (8 * 1)) with 256.
  change (2 ^ (8 * 2)) with 65536. change (2 ^ (8 * 3)) with 16777216.
  change (2 ^ 8) with 256. change (2 ^ 16) with 65536.
  change (2 ^ 24) with 16777216.
  Z.div_mod_to_equations. lia.
Qed.

Lemma load32_store32_apart m p v q :
  apart p q -> memory.load32 (memory.store32 m p v) q = memory.load32 m q.
Proof.
  intros Hq. unfold apart in Hq. unfold memory.load32.
  rewrite !byte_store32_out by lia. reflexivity.
Qed.

(** * The block pool *)

(** ** Separation of link words *)

Lemma apart_sym a b : apart a b -> apart b a.
Proof. unfold apart. lia. Qed.

Lemma spaced_perm l l' : Permutation l l' -> spaced l -> spaced l'.
Proof.
  induction 1 as [| x l l' Hp IH | x y l | l l' l'' Hp1 IH1 Hp2 IH2]; simpl.
  - trivial.
  - intros (Hx & Hf & Hs).
    split; [assumption |]. split; [| auto].
    eapply Permutation_Forall; eassumption.
  - intros (Hy & Hfy & Hx & Hfx & Hs).
    apply Forall_cons in Hfy as [Hyx Hfy].
    split; [assumption |]. split; [| auto].
    constructor; [apply apart_sym; assumption | assumption].
  - auto.
Qed.

Lemma spaced_app_r l1 l2 : spaced (l1 ++ l2) -> spaced l2.
Proof. induction l1 as [| a l1 IH]; simpl; [trivial | tauto]. Qed.

Lemma spaced_NoDup l : spaced l -> NoDup l.
Proof.
  induction l as [| a l IH]; simpl; [constructor |].
  intros (Ha & Hf & Hs). constructor; [| auto].
  intros Hin. rewrite Forall_forall in Hf.
  specialize (Hf a Hin). unfold apart in Hf. lia.
Qed.

Lemma free_chain_store m head l p v :
  free_chain m head l -> Forall (apart p) l ->
  free_chain (memory.store32 m p v) head l.
Proof.
  revert head. induction l as [| a l IH]; simpl; [trivial |].
  intros head [-> Hc] Hf. apply Forall_cons in Hf as [Hpa Hf].
  split; [reflexivity |].
  rewrite load32_store32_apart by assumption. auto.
Qed.

(** ** One call *)

Ltac pool_fields :=
  cbn [block_pool.free_count block_pool.block_count block_pool.next_block
       block_pool.buffer block_pool.end_buffer length] in *.

Lemma alloc_pop bp m a l :
  pool_free_list bp m (a :: l) ->
  exists bp',
    block_pool.alloc bp m = (a, bp') /\
    pool_free_list bp' m l /\
    block_pool.free_count bp' = block_pool.free_count bp - 1 /\
    block_pool.block_count bp' = block_pool.block_count bp /\
    block_pool.buffer bp' = block_pool.buffer bp /\
    block_pool.end_buffer bp' = block_pool.end_buffer bp.
Proof.
  intros ([Hh Hc] & Hlen & Hcnt & Hsp).
  cbn [length] in Hlen. simpl in Hsp. destruct Hsp as (Ha & Hf & Hsp).
  unfold block_pool.alloc.
  destruct (block_pool.free_count bp <=? 0) eqn:E;
    [apply Z.leb_le in E; lia | clear E].
  eexists. split; [rewrite Hh; reflexivity |].
  rewrite wrap_small by lia.
  repeat split; pool_fields; try assumption; lia.
Qed.

Lemma alloc_empty bp m :
  pool_free_list bp m [] -> block_pool.alloc bp m = (0, bp).
Proof.
  intros (_ & Hlen & _). simpl in Hlen. unfold block_pool.alloc.
  rewrite <- Hlen. reflexivity.
Qed.

Lemma dealloc_push bp m l p :
  pool_free_list bp m l ->
  block_pool.free_count bp < block_pool.block_count bp ->
  spaced (p :: l) ->
  exists bp' m',
    block_pool.dealloc bp m p = Done (bp', m') /\
    pool_free_list bp' m' (p :: l) /\
    block_pool.free_count bp' = block_pool.free_count bp + 1 /\
    block_pool.block_count bp' = block_pool.block_count bp /\
    block_pool.buffer bp' = block_pool.buffer bp /\
    block_pool.end_buffer bp' = block_pool.end_buffer bp.
Proof.
  intros (Hc & Hlen & Hcnt & _) Hlt Hsp.
  unfold block_pool.dealloc.
  apply Z.ltb_lt in Hlt as Hlt'. rewrite Hlt'. simpl.
  do 2 eexists. split; [reflexivity |].
  rewrite wrap_small by lia.
  split; [| repeat split; pool_fields; lia].
  split; [| repeat split; pool_fields; try lia; apply Hsp].
  pool_fields.
  - destruct l as [| a l]; simpl; [tauto |].
    destruct Hc as [Ha Hc]. simpl in Hsp.
    destruct Hsp as (Hp & Hf & Hia & _).
    apply Forall_cons in Hf as [Hpa Hf].
    rewrite load32_store32_same by lia.
    rewrite load32_store32_apart by assumption.
    split; [reflexivity |]. split; [assumption |].
    apply free_chain_store; assumption.
Qed.

(** ** Sequences of calls *)

Lemma alloc_many_take k bp m l :
  pool_free_list bp m l -> (k <= length l)%nat ->
  exists bp',
    alloc_many k bp m = (firstn k l, bp') /\
    pool_free_list bp' m (skipn k l) /\
    block_pool.free_count bp' = block_pool.free_count bp - Z.of_nat k /\
    block_pool.block_count bp' = block_pool.block_count bp /\
    block_pool.buffer bp' = block_pool.buffer bp /\
    block_pool.end_buffer bp' = block_pool.end_buffer bp.
Proof.
  revert bp l. induction k as [| k IH]; intros bp l Hfl Hk.
  - exists bp. cbn [alloc_many firstn skipn].
    split; [reflexivity |]. split; [assumption |]. repeat split; lia.
  - destruct l as [| a l]; [simpl in Hk; lia |].
    destruct (alloc_pop bp m a l Hfl) as (bp1 & Ha & Hfl1 & Hc1 & Hb1 & Hbuf1 & He1).
    destruct (IH bp1 l Hfl1) as (bp2 & Hm & Hfl2 & Hc2 & Hb2 & Hbuf2 & He2);
      [simpl in Hk; lia |].
    exists bp2. cbn [alloc_many firstn skipn]. rewrite Ha, Hm.
    split; [reflexivity |]. split; [assumption |].
    repeat split; try congruence; lia.
Qed.

Lemma dealloc_many_push frees bp m l :
  pool_free_list bp m l ->
  spaced (frees ++ l) ->
  block_pool.free_count bp + Z.of_nat (length frees) <= block_pool.block_count bp ->
  exists bp' m',
    dealloc_many frees bp m = Done (bp', m') /\
    pool_free_list bp' m' (rev frees ++ l) /\
    block_pool.free_count bp' = block_pool.free_count bp + Z.of_nat (length frees) /\
    block_pool.block_count bp' = block_pool.block_count bp /\
    block_pool.buffer bp' = block_pool.buffer bp /\
    block_pool.end_buffer bp' = block_pool.end_buffer bp.
Proof.
  revert bp m l. induction frees as [| p frees IH]; intros bp m l Hfl Hsp Hcnt.
  - exists bp, m. cbn [dealloc_many rev app length] in *.
    split; [reflexivity |]. split; [assumption |]. repeat split; lia.
  - cbn [length] in Hcnt.
    assert (Hsp' : spaced (frees ++ p :: l)).
    { eapply spaced_perm; [| exact Hsp]. apply Permutation_middle. }
    destruct (dealloc_push bp m l p Hfl) as (bp1 & m1 & Hd & Hfl1 & Hc1 & Hb1 & Hbuf1 & He1);
      [lia | eapply spaced_app_r; exact Hsp' |].
    destruct (IH bp1 m1 (p :: l) Hfl1 Hsp') as (bp2 & m2 & Hd2 & Hfl2 & Hc2 & Hb2 & Hbuf2 & He2);
      [lia |].
    exists bp2, m2. cbn [dealloc_many rev]. rewrite Hd. cbn [obind fst snd].
    rewrite <- app_assoc. cbn [app length].
    split; [assumption |]. split; [assumption |].
    repeat split; try congruence; lia.
Qed.

(** ** The free list built by [init] *)

Lemma stride_bounds bs : 4 <= bs -> 4 <= stride bs <= bs.
Proof.
  intros H. unfold stride.
  pose proof (Z.div_mod bs 4 ltac:(lia)).
  pose proof (Z.mod_pos_bound bs 4 ltac:(lia)). lia.
Qed.

Lemma block_addr_value buf bs N k :
  4 <= bs -> 0 < buf -> buf + bs * N < 4294967296 -> 0 <= k < N ->
  block_pool.block_addr buf bs k = buf + k * stride bs.
Proof.
  intros Hbs Hbuf Hfit Hk.
  pose proof (stride_bounds bs Hbs) as Hst.
  assert (Hle : k * stride bs <= (N - 1) * bs) by nia.
  unfold block_pool.block_addr, word.index32.
  rewrite Z.shiftr_div_pow2 by lia. change (2 ^ 2) with 4.
  unfold stride in *.
  rewrite (wrap_small (k * (bs / 4))) by nia.
  rewrite wrap_small by nia. lia.
Qed.

Lemma block_addr_aligned buf bs N k :
  4 <= bs -> bs mod 4 = 0 -> 0 < buf -> buf + bs * N < 4294967296 ->
  0 <= k < N ->
  block_pool.block_addr buf bs k = buf + k * bs.
Proof.
  intros Hbs Hal Hbuf Hfit Hk.
  rewrite (block_addr_value buf bs N) by assumption.
  unfold stride. pose proof (Z.div_mod bs 4 ltac:(lia)). nia.
Qed.

(** Effect of the threading loop on the link words. *)
Lemma thread_blocks_load buf bs N n :
  4 <= bs -> 0 < buf -> buf + bs * N < 4294967296 ->
  forall j m, 0 <= j -> j + Z.of_nat n < N ->
  let m' := block_pool.thread_blocks n buf bs j m in
  (forall k, j <= k < j + Z.of_nat n ->
     memory.load32 m' (buf + k * stride bs) = buf + (k + 1) * stride bs) /\
  (forall q,
     (forall k, j <= k < j + Z.of_nat n -> apart (buf + k * stride bs) q) ->
     memory.load32 m' q = memory.load32 m q).
Proof.
  intros Hbs Hbuf Hfit. pose proof (stride_bounds bs Hbs) as Hst.
  induction n as [| n IH]; intros j m Hj Hn; cbn zeta.
  - split; [intros k Hk; lia | intros q _; reflexivity].
  - cbn [block_pool.thread_blocks].
    rewrite (block_addr_value buf bs N j), (block_addr_value buf bs N (j + 1))
      by lia.
    destruct (IH (j + 1)
                (memory.store32 m (buf + j * stride bs) (buf + (j + 1) * stride bs)))
      as [IHin IHout]; [lia | lia |].
    split.
    + intros k Hk. destruct (Z.eq_dec k j) as [-> | Hne].
      * rewrite IHout.
        -- apply load32_store32_same. nia.
        -- intros k Hk'. unfold apart. nia.
      * apply IHin. lia.
    + intros q Hq. rewrite IHout.
      * apply load32_store32_apart. apply Hq. lia.
      * intros k Hk. apply Hq. lia.
Qed.

Lemma blocks_cons buf bs j n :
  blocks buf bs j (S n) = (buf + Z.of_nat j * stride bs) :: blocks buf bs (S j) n.
Proof. reflexivity. Qed.

Lemma blocks_length buf bs j n : length (blocks buf bs j n) = n.
Proof. unfold blocks. rewrite length_map, length_seq. reflexivity. Qed.

Lemma blocks_elem buf bs j n a :
  In a (blocks buf bs j n) ->
  exists i, (j <= i < j + n)%nat /\ a = buf + Z.of_nat i * stride bs.
Proof.
  unfold blocks. rewrite in_map_iff. intros (i & <- & Hi).
  apply in_seq in Hi. eauto.
Qed.

Lemma blocks_spaced buf bs N j n :
  4 <= bs -> 0 < buf -> buf + bs * N < 4294967296 ->
  Z.of_nat j + Z.of_nat n <= N ->
  spaced (blocks buf bs j n).
Proof.
  intros Hbs Hbuf Hfit. pose proof (stride_bounds bs Hbs) as Hst.
  revert j. induction n as [| n IH]; intros j Hn; [exact I |].
  rewrite blocks_cons. cbn [spaced].
  split; [nia |]. split; [| apply IH; lia].
  apply List.Forall_forall. intros a Ha.
  apply blocks_elem in Ha as (i & Hi & ->). unfold apart. nia.
Qed.

Lemma blocks_chain m buf bs n : forall j,
  (forall k, Z.of_nat j <= k < Z.of_nat j + Z.of_nat n - 1 ->
     memory.load32 m (buf + k * stride bs) = buf + (k + 1) * stride bs) ->
  free_chain m (buf + Z.of_nat j * stride bs) (blocks buf bs j n).
Proof.
  induction n as [| n IH]; intros j Hl; [exact I |].
  rewrite blocks_cons. cbn [free_chain]. split; [reflexivity |].
  destruct n as [| n]; [exact I |].
  rewrite Hl by lia.
  replace (Z.of_nat j + 1) with (Z.of_nat (S j)) by lia.
  apply IH. intros k Hk. apply Hl. lia.
Qed.

(** [init] leaves a pool whose free list is block 0, block 1, ..., in
    address order. *)
Lemma init_free_list bs N buf m :
  1 <= N -> 4 <= bs -> 0 < buf -> buf + bs * N < 4294967296 ->
  pool_free_list (fst (block_pool.init bs N buf m))
                 (snd (block_pool.init bs N buf m))
                 (blocks buf bs 0 (Z.to_nat N)).
Proof.
  intros HN Hbs Hbuf Hfit. unfold block_pool.init. cbn [fst snd].
  assert (HbsN : N < 4294967296) by nia.
  rewrite (wrap_small (N - 1)) by lia.
  destruct (thread_blocks_load buf bs N (Z.to_nat (N - 1)) Hbs Hbuf Hfit 0 m)
    as [Hin _]; [lia | lia |].
  repeat split; pool_fields.
  - replace buf with (buf + Z.of_nat 0 * stride bs) at 2 by lia.
    apply blocks_chain. intros k Hk. apply Hin. lia.
  - rewrite blocks_length. lia.
  - lia.
  - lia.
  - apply (blocks_spaced buf bs N); try assumption. lia.
Qed.

(** ** The claims about one block pool *)

Lemma init_fields bs N buf m :
  1 <= N -> 4 <= bs -> 0 < buf -> buf + bs * N < 4294967296 ->
  let bp := fst (block_pool.init bs N buf m) in
  block_pool.buffer bp = buf /\
  block_pool.end_buffer bp = buf + bs * N /\
  block_pool.next_block bp = buf /\
  block_pool.free_count bp = N /\
  block_pool.block_count bp = N.
Proof.
  intros HN Hbs Hbuf Hfit. unfold block_pool.init. cbn [fst]. pool_fields.
  repeat split.
  rewrite (wrap_small (bs * N)) by nia. apply wrap_small. nia.
Qed.

(** C3: a pool initialised with [block_count = N >= 1] (blocks of at least
    one word, in a buffer that lies inside the address space) serves exactly
    [N] consecutive [alloc()] calls: they all return a non-null address, the
    addresses are pairwise distinct and lie in [[buffer, end_buffer)], and
    the next call returns null. *)
Theorem block_pool_correctness (bs N buf : Z) (m : memory.t) :
  1 <= N -> 4 <= bs -> 0 < buf -> buf + bs * N < 4294967296 ->
  let bp := fst (block_pool.init bs N buf m) in
  let m' := snd (block_pool.init bs N buf m) in
  let got := fst (alloc_many (Z.to_nat N) bp m') in
  let bp' := snd (alloc_many (Z.to_nat N) bp m') in
  length got = Z.to_nat N /\
  Forall (fun p => p <> 0) got /\
  NoDup got /\
  Forall (fun p => block_pool.buffer bp <= p < block_pool.end_buffer bp) got /\
  fst (block_pool.alloc bp' m') = 0.
Proof.
  intros HN Hbs Hbuf Hfit bp m'.
  pose proof (init_free_list bs N buf m HN Hbs Hbuf Hfit) as Hfl.
  fold bp m' in Hfl.
  destruct (init_fields bs N buf m HN Hbs Hbuf Hfit) as (Hb & He & _).
  fold bp in Hb, He.
  destruct (alloc_many_take (Z.to_nat N) bp m' _ Hfl)
    as (bp1 & Ham & Hfl1 & _); [rewrite blocks_length; lia |].
  rewrite Ham. cbn [fst snd].
  rewrite firstn_all2 by (rewrite blocks_length; lia).
  rewrite skipn_all2 in Hfl1 by (rewrite blocks_length; lia).
  pose proof (stride_bounds bs Hbs) as Hst.
  split; [apply blocks_length |].
  split; [| split; [| split]].
  - apply List.Forall_forall. intros a Ha.
    apply blocks_elem in Ha as (i & Hi & ->). nia.
  - apply spaced_NoDup. apply Hfl.
  - apply List.Forall_forall. intros a Ha.
    apply blocks_elem in Ha as (i & Hi & ->). rewrite Hb, He. nia.
  - rewrite (alloc_empty bp1 m' Hfl1). reflexivity.
Qed.

(** C4 (as amended): from a pool whose free list holds at least [k] blocks,
    allocating [k] blocks, freeing those [k] blocks in any order and
    allocating [k] blocks again returns the same addresses up to order;
    [free_count] is back at its value from before the allocations after the
    frees, and back at its value from after the allocations after the
    reuse. *)
Theorem lifo_reuse (bp : block_pool.t) (m : memory.t) (l frees : list Z)
    (k : nat) :
  pool_free_list bp m l -> (k <= length l)%nat ->
  Permutation frees (firstn k l) ->
  exists bp1 bp2 m2 bp3 again,
    alloc_many k bp m = (firstn k l, bp1) /\
    dealloc_many frees bp1 m = Done (bp2, m2) /\
    alloc_many k bp2 m2 = (again, bp3) /\
    Permutation again (firstn k l) /\
    NoDup (firstn k l) /\
    Forall (fun p => p <> 0) again /\
    block_pool.free_count bp1 = block_pool.free_count bp - Z.of_nat k /\
    block_pool.free_count bp2 = block_pool.free_count bp /\
    block_pool.free_count bp3 = block_pool.free_count bp1.
Proof.
  intros Hfl Hk Hperm.
  assert (Hlen : length frees = k).
  { rewrite (Permutation_length Hperm). apply firstn_length_le. assumption. }
  assert (Hsp : spaced l) by apply Hfl.
  assert (Hsp' : spaced (frees ++ skipn k l)).
  { apply (spaced_perm (firstn k l ++ skipn k l));
      [| rewrite firstn_skipn; exact Hsp].
    apply Permutation_app_tail. symmetry. assumption. }
  destruct (alloc_many_take k bp m l Hfl Hk)
    as (bp1 & Ha1 & Hfl1 & Hc1 & Hb1 & _).
  assert (Hcnt : block_pool.free_count bp <= block_pool.block_count bp)
    by apply Hfl.
  destruct (dealloc_many_push frees bp1 m (skipn k l) Hfl1 Hsp')
    as (bp2 & m2 & Hd & Hfl2 & Hc2 & Hb2 & _); [lia |].
  destruct (alloc_many_take k bp2 m2 _ Hfl2)
    as (bp3 & Ha3 & Hfl3 & Hc3 & _);
    [rewrite length_app, length_rev; lia |].
  assert (Hagain : firstn k (rev frees ++ skipn k l) = rev frees).
  { rewrite List.firstn_app, length_rev, Hlen, Nat.sub_diag.
    rewrite firstn_all2 by (rewrite length_rev; lia).
    cbn [firstn]. apply app_nil_r. }
  rewrite Hagain in Ha3.
  assert (Hpr : Permutation (rev frees) (firstn k l)).
  { etransitivity; [symmetry; apply Permutation_rev | assumption]. }
  exists bp1, bp2, m2, bp3, (rev frees).
  repeat split; try assumption; try lia.
  - apply spaced_NoDup. rewrite <- (firstn_skipn k l) in Hsp.
    clear -Hsp. induction (firstn k l) as [| a t IH]; [exact I |].
    cbn [app spaced] in *. destruct Hsp as (Ha & Hf & Hs).
    split; [assumption |]. split; [| auto].
    apply Forall_app in Hf. tauto.
  - assert (Hs : spaced (rev frees)).
    { eapply spaced_perm; [apply Permutation_rev |].
      clear -Hsp'. induction frees as [| a t IH]; [exact I |].
      cbn [app spaced] in *. destruct Hsp' as (Ha & Hf & Hs).
      split; [assumption |]. split; [| auto].
      apply Forall_app in Hf. tauto. }
    clear -Hs. induction (rev frees) as [| a t IH]; [constructor |].
    cbn [spaced] in Hs. constructor; [lia | tauto].
Qed.

(** C5 (as amended): [init(block_size, block_count)] records the backing
    buffer, writes into the first word of block [k], for every [k] in
    [0 .. block_count - 2], the address of block [k + 1], leaves the first
    word of the last block as it found it, makes block 0 the head of the free
    list and sets [free_count] to [block_count]. *)
Theorem init_threads_free_list (bs N buf : Z) (m : memory.t) :
  1 <= N -> 4 <= bs -> 0 < buf -> buf + bs * N < 4294967296 ->
  let bp := fst (block_pool.init bs N buf m) in
  let m' := snd (block_pool.init bs N buf m) in
  block_pool.buffer bp = buf /\
  block_pool.end_buffer bp = buf + bs * N /\
  (forall k, 0 <= k <= N - 2 ->
     memory.load32 m' (block_pool.block_addr buf bs k)
       = block_pool.block_addr buf bs (k + 1)) /\
  memory.load32 m' (block_pool.block_addr buf bs (N - 1))
    = memory.load32 m (block_pool.block_addr buf bs (N - 1)) /\
  block_pool.next_block bp = block_pool.block_addr buf bs 0 /\
  block_pool.free_count bp = N /\
  block_pool.block_count bp = N /\
  (bs mod 4 = 0 ->
     forall k, 0 <= k < N -> block_pool.block_addr buf bs k = buf + k * bs).
Proof.
  intros HN Hbs Hbuf Hfit bp m'.
  destruct (init_fields bs N buf m HN Hbs Hbuf Hfit) as (Hb & He & Hn & Hf & Hc).
  fold bp in Hb, He, Hn, Hf, Hc.
  pose proof (stride_bounds bs Hbs) as Hst.
  assert (HbsN : N < 4294967296) by nia.
  assert (Hm' : m' = block_pool.thread_blocks (Z.to_nat (N - 1)) buf bs 0 m).
  { unfold m', block_pool.init. cbn [snd].
    rewrite (wrap_small (N - 1)) by lia. reflexivity. }
  destruct (thread_blocks_load buf bs N (Z.to_nat (N - 1)) Hbs Hbuf Hfit 0 m)
    as [Hin Hout]; [lia | lia |].
  rewrite <- Hm' in Hin, Hout.
  repeat split; try assumption.
  - intros k Hk.
    rewrite (block_addr_value buf bs N k), (block_addr_value buf bs N (k + 1))
      by lia.
    apply Hin. lia.
  - rewrite (block_addr_value buf bs N (N - 1)) by lia.
    apply Hout. intros k Hk. unfold apart. nia.
  - rewrite (block_addr_value buf bs N 0) by lia. lia.
  - intros Hal k Hk. apply (block_addr_aligned buf bs N); assumption.
Qed.

(** * The arena allocator [fixed_pool] *)

Lemma set_pools_same st :
  fixed_pool.set_pools st (fixed_pool.the_pool_set st) (fixed_pool.mem st) = st.
Proof. destruct st; reflexivity. Qed.

(** ** Probing the pools *)

Lemma dealloc_from_unclaimed ps n rest m p :
  Forall (fun bp => block_pool.in_range bp p = false) rest ->
  pool_set.dealloc_from ps n rest m p = Done (false, ps, m).
Proof.
  revert n. induction rest as [| bp rest IH]; intros n Hf; [reflexivity |].
  apply Forall_cons in Hf as [Hbp Hf].
  cbn [pool_set.dealloc_from]. rewrite Hbp. auto.
Qed.

Lemma dealloc_from_first ps n before bp after m p :
  Forall (fun q => block_pool.in_range q p = false) before ->
  block_pool.in_range bp p = true ->
  pool_set.dealloc_from ps n (before ++ bp :: after) m p =
    obind (block_pool.dealloc bp m p) (fun r =>
      Done (true,
            pool_set.mk (<[(n + length before)%nat := fst r]> (pool_set.pools ps)),
            snd r)).
Proof.
  revert n. induction before as [| q before IH]; intros n Hf Hbp.
  - cbn [app pool_set.dealloc_from length]. rewrite Hbp, Nat.add_0_r. reflexivity.
  - apply Forall_cons in Hf as [Hq Hf].
    cbn [app pool_set.dealloc_from length]. rewrite Hq.
    rewrite IH by assumption.
    replace (S n + length before)%nat with (n + S (length before))%nat by lia.
    reflexivity.
Qed.

Lemma insert_middle {A} (before : list A) (x y : A) (after : list A) :
  <[length before := y]> (before ++ x :: after) = before ++ y :: after.
Proof.
  induction before as [| a before IH]; [reflexivity |].
  cbn [length app]. cbn. f_equal. exact IH.
Qed.

Lemma in_arena_test PoolSize st p :
  0 <= fixed_pool.frag_buffer st ->
  fixed_pool.frag_buffer st + PoolSize < 4294967296 ->
  0 <= PoolSize ->
  ((fixed_pool.frag_buffer st <=? p)
   && (p <? word.wrap (fixed_pool.frag_buffer st + PoolSize)) = true
   <-> fixed_pool.frag_buffer st <= p < fixed_pool.frag_buffer st + PoolSize).
Proof.
  intros H0 Hfit Hsz. rewrite wrap_small by lia.
  rewrite andb_true_iff, Z.leb_le, Z.ltb_lt. tauto.
Qed.

(** C2: before [release()], [fixed_pool::dealloc(p)] does one of three
    things.  When [p] lies in the arena's byte range and a block pool claims
    it, [p] goes through [dealloc] of the first pool that claims it, which
    pushes it on that pool's free list, and nothing else happens; when [p]
    lies in the range and no pool claims it, nothing at all happens; when [p]
    lies outside the range, [p] is passed to [free] and the allocator's
    state does not change. *)
Theorem dealloc_routing (PoolSize : Z) (st : fixed_pool.globals) (p : Z) :
  fixed_pool.released st = false ->
  0 <= fixed_pool.frag_buffer st ->
  0 <= PoolSize ->
  fixed_pool.frag_buffer st + PoolSize < 4294967296 ->
  (forall before bp after,
     fixed_pool.frag_buffer st <= p < fixed_pool.frag_buffer st + PoolSize ->
     pool_set.pools (fixed_pool.the_pool_set st) = before ++ bp :: after ->
     Forall (fun q => block_pool.in_range q p = false) before ->
     block_pool.in_range bp p = true ->
     fixed_pool.dealloc PoolSize st p =
       obind (block_pool.dealloc bp (fixed_pool.mem st) p) (fun r =>
         Done (fixed_pool.set_pools st
                 (pool_set.mk (before ++ fst r :: after)) (snd r), []))
     /\ (block_pool.free_count bp < block_pool.block_count bp ->
         fixed_pool.dealloc PoolSize st p =
           Done (fixed_pool.set_pools st
                   (pool_set.mk
                      (before ++
                       block_pool.mk
                         (block_pool.block_count bp)
                         (word.wrap (block_pool.free_count bp + 1))
                         p
                         (block_pool.buffer bp)
                         (block_pool.end_buffer bp) :: after))
                   (memory.store32 (fixed_pool.mem st) p
                      (block_pool.next_block bp)),
                 []))) /\
  (fixed_pool.frag_buffer st <= p < fixed_pool.frag_buffer st + PoolSize ->
   Forall (fun q => block_pool.in_range q p = false)
     (pool_set.pools (fixed_pool.the_pool_set st)) ->
   fixed_pool.dealloc PoolSize st p = Done (st, [])) /\
  (~ fixed_pool.frag_buffer st <= p < fixed_pool.frag_buffer st + PoolSize ->
   fixed_pool.dealloc PoolSize st p = Done (st, [ev_free p])).
Proof.
  intros Hrel Hfrag Hsz Hfit.
  pose proof (in_arena_test PoolSize st p Hfrag Hfit Hsz) as Htest.
  assert (Hrouted : forall before bp after,
     fixed_pool.frag_buffer st <= p < fixed_pool.frag_buffer st + PoolSize ->
     pool_set.pools (fixed_pool.the_pool_set st) = before ++ bp :: after ->
     Forall (fun q => block_pool.in_range q p = false) before ->
     block_pool.in_range bp p = true ->
     fixed_pool.dealloc PoolSize st p =
       obind (block_pool.dealloc bp (fixed_pool.mem st) p) (fun r =>
         Done (fixed_pool.set_pools st
                 (pool_set.mk (before ++ fst r :: after)) (snd r), []))).
  { intros before bp after Hin Hpools Hbefore Hbp.
    unfold fixed_pool.dealloc.
    rewrite (proj2 Htest Hin), Hrel. cbn [negb].
    unfold pool_set.dealloc. rewrite Hpools.
    rewrite dealloc_from_first by assumption.
    rewrite Hpools. cbn [Nat.add].
    destruct (block_pool.dealloc bp (fixed_pool.mem st) p) as [[bp' m'] |];
      [| reflexivity].
    cbn [obind fst snd]. rewrite insert_middle. reflexivity. }
  split; [| split].
  - intros before bp after Hin Hpools Hbefore Hbp.
    split; [apply Hrouted; assumption |].
    intros Hlt. rewrite (Hrouted before bp after) by assumption.
    unfold block_pool.dealloc. apply Z.ltb_lt in Hlt. rewrite Hlt.
    reflexivity.
  - intros Hin Hnone. unfold fixed_pool.dealloc.
    rewrite (proj2 Htest Hin), Hrel. cbn [negb].
    unfold pool_set.dealloc. rewrite dealloc_from_unclaimed by assumption.
    cbn [obind]. rewrite set_pools_same. reflexivity.
  - intros Hout. unfold fixed_pool.dealloc.
    rewrite (proj1 (not_true_iff_false _));
      [reflexivity | intros E; apply Htest in E; contradiction].
Qed.

(** C6 (as amended): after [release()], [fixed_pool::dealloc(p)] of a
    pointer inside the arena's byte range skips the probe of the pool set and
    does nothing: no pool's free list changes and [free] is not called. *)
Theorem dealloc_after_release (PoolSize : Z) (st : fixed_pool.globals) (p : Z) :
  0 <= fixed_pool.frag_buffer st ->
  0 <= PoolSize ->
  fixed_pool.frag_buffer st + PoolSize < 4294967296 ->
  fixed_pool.frag_buffer st <= p < fixed_pool.frag_buffer st + PoolSize ->
  let st' := fst (fixed_pool.release st) in
  fixed_pool.released st' = true /\
  fixed_pool.dealloc PoolSize st' p = Done (st', []).
Proof.
  intros Hfrag Hsz Hfit Hin st'. split; [reflexivity |].
  unfold fixed_pool.dealloc.
  assert (Hf : fixed_pool.frag_buffer st' = fixed_pool.frag_buffer st)
    by reflexivity.
  rewrite Hf.
  rewrite (proj2 (in_arena_test PoolSize st p Hfrag Hfit Hsz) Hin).
  reflexivity.
Qed.

(** ** Allocation through the arena allocator *)

(** The trace line that [alloc] hands to [sys::log]. *)
Lemma alloc_shape PoolSize fuel heap_ptr st bytes type p st' :
  (if pool_type.eqb pool_type.logarithmic type then
     let '(p, ps) :=
       pool_set.alloc (fixed_pool.the_pool_set st) (fixed_pool.mem st)
         (word.align4 bytes) in
     Some (p, fixed_pool.set_pools st ps (fixed_pool.mem st))
   else if pool_type.eqb pool_type.fixed type
           && (word.align4 bytes <=? PoolSize)
   then fixed_pool.bump PoolSize fuel st (word.align4 bytes)
   else Some (0, st)) = Some (p, st') ->
  fixed_pool.alloc PoolSize fuel heap_ptr st bytes type =
    let heap_fallback := p =? 0 in
    let q := if pool_type.eqb pool_type.heap type || heap_fallback
             then heap_ptr else p in
    Some (q, st',
          (if pool_type.eqb pool_type.heap type || heap_fallback
           then [ev_malloc (word.align4 bytes)] else [])
          ++ (if fixed_pool.debug st' then
                [ev_log (fixed_pool.type_label type) bytes q
                   (if negb (q =? 0) then "succeeded" else "failed")
                   (if heap_fallback then "(fallback on heap)" else "")]
              else [])).
Proof.
  intros Htier. unfold fixed_pool.alloc. cbv zeta. rewrite Htier.
  destruct (pool_type.eqb pool_type.heap type || (p =? 0)); reflexivity.
Qed.

Lemma bump_once PoolSize fuel st alloc_bytes :
  0 < fixed_pool.next st ->
  fixed_pool.bump PoolSize (S fuel) st alloc_bytes =
    if word.wrap (fixed_pool.next st + alloc_bytes)
       >? word.wrap (fixed_pool.frag_buffer st + PoolSize)
    then Some (0, st)
    else Some (fixed_pool.next st,
               fixed_pool.set_next st
                 (word.wrap (fixed_pool.next st + alloc_bytes))).
Proof.
  intros Hnext. cbn [fixed_pool.bump]. cbv zeta.
  destruct (word.wrap (fixed_pool.next st + alloc_bytes)
            >? word.wrap (fixed_pool.frag_buffer st + PoolSize));
    [reflexivity |].
  unfold fixed_pool.cas. rewrite Z.eqb_refl.
  destruct (fixed_pool.next st =? 0) eqn:E; [apply Z.eqb_eq in E; lia |].
  reflexivity.
Qed.

Lemma round_up4_is_align4 s r :
  0 <= s <= 4294967292 -> is_round_up4 s r -> word.align4 s = r.
Proof.
  intros Hs [[q Hq] Hr].
  destruct (align4_is_round_up s Hs) as [[q' Hq'] Hr']. lia.
Qed.

(** C7 (as amended): an arena-direct request of at most [2^32 - 4] bytes
    whose size, rounded up to a multiple of 4, exceeds the arena capacity
    never enters the reservation loop: [malloc] is called at once for the
    rounded size, its result is returned, and the allocator's state, the
    cursor included, is unchanged. *)
Theorem oversized_fixed_request (PoolSize : Z) (fuel : nat) (heap_ptr : Z)
    (st : fixed_pool.globals) (bytes rounded : Z) :
  0 <= bytes <= 4294967292 ->
  is_round_up4 bytes rounded ->
  PoolSize < rounded ->
  fixed_pool.alloc PoolSize fuel heap_ptr st bytes pool_type.fixed =
    Some (heap_ptr, st,
          ev_malloc rounded ::
          (if fixed_pool.debug st then
             [ev_log "Fixed" bytes heap_ptr
                (if negb (heap_ptr =? 0) then "succeeded" else "failed")
                "(fallback on heap)"]
           else [])).
Proof.
  intros Hbytes Hround Hbig.
  pose proof (round_up4_is_align4 bytes rounded Hbytes Hround) as Halign.
  rewrite (alloc_shape PoolSize fuel heap_ptr st bytes pool_type.fixed 0 st).
  - rewrite Halign. reflexivity.
  - cbn [pool_type.eqb andb]. rewrite Halign.
    apply Z.leb_gt in Hbig. rewrite Hbig. reflexivity.
Qed.

(** C10: a size-classed request of 0 bytes is never served by a pool.  The
    rounded size stays 0, [integer_log(0)] is 0, the pool index [0 - 2] wraps
    to 4294967294, the bounds check fails whatever the pools hold, and the
    arena allocator serves the request with [malloc]. *)
Theorem zero_size_request (PoolSize : Z) (fuel : nat) (heap_ptr : Z)
    (st : fixed_pool.globals) :
  pool_set.pool_count (fixed_pool.the_pool_set st) <= 4294967294 ->
  word.align4 0 = 0 /\
  pool_set.integer_log 0 = 0 /\
  pool_set.pool_index 0 = 4294967294 /\
  pool_set.alloc (fixed_pool.the_pool_set st) (fixed_pool.mem st) 0
    = (0, fixed_pool.the_pool_set st) /\
  fixed_pool.alloc PoolSize fuel heap_ptr st 0 pool_type.logarithmic =
    Some (heap_ptr, st,
          ev_malloc 0 ::
          (if fixed_pool.debug st then
             [ev_log " Log " 0 heap_ptr
                (if negb (heap_ptr =? 0) then "succeeded" else "failed")
                "(fallback on heap)"]
           else [])).
Proof.
  intros Hcount.
  assert (Hps : pool_set.alloc (fixed_pool.the_pool_set st) (fixed_pool.mem st) 0
                = (0, fixed_pool.the_pool_set st)).
  { apply alloc_out_of_classes. change (pool_set.pool_index 0) with 4294967294.
    assumption. }
  repeat split; try reflexivity; try assumption.
  rewrite (alloc_shape PoolSize fuel heap_ptr st 0 pool_type.logarithmic 0 st).
  - reflexivity.
  - cbn [pool_type.eqb]. change (word.align4 0) with 0. rewrite Hps.
    rewrite set_pools_same. reflexivity.
Qed.

Lemma align4_below b : word.align4 b < 4294967296.
Proof.
  unfold word.align4. pose proof (wrap_range (b + 3)) as Hw.
  pose proof (land_le (word.wrap (b + 3)) (word.wrap (Z.lnot 3))
                ltac:(lia)). lia.
Qed.

(** Two iterations leave the loop, unless the cursor is null and nothing is
    asked for: a null cursor is moved by the first iteration and returned
    by the second. *)
Lemma bump_twice PoolSize fuel st alloc_bytes :
  0 <= alloc_bytes < 4294967296 ->
  (alloc_bytes = 0 -> fixed_pool.next st <> 0) ->
  exists p st',
    fixed_pool.bump PoolSize (S (S fuel)) st alloc_bytes = Some (p, st') /\
    fixed_pool.debug st' = fixed_pool.debug st.
Proof.
  intros Hsize Hnull.
  change (fixed_pool.bump PoolSize (S (S fuel)) st alloc_bytes) with
    (let cur_next := fixed_pool.next st in
     let next_next := word.wrap (cur_next + alloc_bytes) in
     if next_next >? word.wrap (fixed_pool.frag_buffer st + PoolSize) then
       Some (0, st)
     else
       let '(swapped, st') := fixed_pool.cas st cur_next next_next in
       let p := if swapped then cur_next else 0 in
       if p =? 0 then fixed_pool.bump PoolSize (S fuel) st' alloc_bytes
       else Some (p, st')).
  cbv zeta.
  destruct (_ >? _); [exists 0, st; split; reflexivity |].
  unfold fixed_pool.cas. rewrite Z.eqb_refl.
  destruct (fixed_pool.next st =? 0) eqn:E;
    [apply Z.eqb_eq in E | eexists _, _; split; reflexivity].
  rewrite E, Z.add_0_l, (wrap_small alloc_bytes) by assumption.
  assert (Hpos : 0 < alloc_bytes).
  { destruct (Z.eq_dec alloc_bytes 0) as [H0 | H0]; [| lia].
    exfalso. exact (Hnull H0 E). }
  rewrite bump_once by exact Hpos.
  destruct (_ >? _); eexists _, _; split; reflexivity.
Qed.

(** C9 (as amended): with diagnostics enabled, every call of [alloc]
    returns and emits exactly one trace, after any call of [malloc]; the
    one call left out is the arena-direct request of rounded size 0 made
    while the cursor is null.  The trace carries the label of the requested
    strategy, the requested size [bytes] as passed by the caller (not the
    rounded size), the returned address and "succeeded" or "failed"
    according to whether that address is non-null; for a size-classed or an
    arena-direct request it carries the fallback text exactly when the
    request fell back on [malloc]. *)
Theorem alloc_trace (PoolSize : Z) (fuel : nat) (heap_ptr : Z)
    (st : fixed_pool.globals) (bytes : Z) (type : pool_type.en) :
  fixed_pool.debug st = true ->
  (type = pool_type.fixed -> word.align4 bytes = 0 ->
   fixed_pool.next st <> 0) ->
  exists (p : Z) (st' : fixed_pool.globals) (heap_calls : list event)
         (fallback : bool),
    fixed_pool.alloc PoolSize (S (S fuel)) heap_ptr st bytes type =
      Some (p, st',
            heap_calls ++
            [ev_log (fixed_pool.type_label type) bytes p
               (if negb (p =? 0) then "succeeded" else "failed")
               (if fallback then "(fallback on heap)" else "")]) /\
    (heap_calls = [ev_malloc (word.align4 bytes)] /\ p = heap_ptr
     \/ heap_calls = [] /\ p <> 0) /\
    (type <> pool_type.heap ->
     (fallback = true <-> heap_calls = [ev_malloc (word.align4 bytes)])) /\
    (type = pool_type.heap -> heap_calls = [ev_malloc (word.align4 bytes)]) /\
    fixed_pool.type_label type =
      match type with
      | pool_type.logarithmic => " Log "%string
      | pool_type.fixed => "Fixed"%string
      | pool_type.heap => "Heap "%string
      end.
Proof.
  intros Hdebug Hnull.
  assert (Htier : exists p st',
    (if pool_type.eqb pool_type.logarithmic type then
       let '(p, ps) :=
         pool_set.alloc (fixed_pool.the_pool_set st) (fixed_pool.mem st)
           (word.align4 bytes) in
       Some (p, fixed_pool.set_pools st ps (fixed_pool.mem st))
     else if pool_type.eqb pool_type.fixed type
             && (word.align4 bytes <=? PoolSize)
     then fixed_pool.bump PoolSize (S (S fuel)) st (word.align4 bytes)
     else Some (0, st)) = Some (p, st')
    /\ fixed_pool.debug st' = true
    /\ (type = pool_type.heap -> p = 0)).
  { destruct type; cbn [pool_type.eqb andb].
    - destruct (pool_set.alloc _ _ _) as [p ps].
      exists p, (fixed_pool.set_pools st ps (fixed_pool.mem st)).
      split; [reflexivity |]. split; [assumption | discriminate].
    - destruct (word.align4 bytes <=? PoolSize).
      + pose proof (align4_below bytes) as Hlt.
        assert (Hge : 0 <= word.align4 bytes).
        { unfold word.align4. apply Z.land_nonneg. left. apply wrap_range. }
        destruct (bump_twice PoolSize fuel st (word.align4 bytes)
                    ltac:(lia) (Hnull eq_refl)) as (p & st' & Hb & Hd).
        exists p, st'. split; [exact Hb |].
        split; [congruence | discriminate].
      + exists 0, st. split; [reflexivity |]. split; [assumption | discriminate].
    - exists 0, st. split; [reflexivity |]. split; [assumption | reflexivity]. }
  destruct Htier as (p & st' & Htier & Hdebug' & Hheap).
  rewrite (alloc_shape PoolSize (S (S fuel)) heap_ptr st bytes type p st' Htier).
  cbv zeta. rewrite Hdebug'.
  set (served_by_heap := pool_type.eqb pool_type.heap type || (p =? 0)).
  exists (if served_by_heap then heap_ptr else p), st',
         (if served_by_heap then [ev_malloc (word.align4 bytes)] else []),
         (p =? 0).
  split; [reflexivity |].
  split; [| split; [| split; [| destruct type; reflexivity]]].
  - destruct (p =? 0) eqn:E.
    + left. unfold served_by_heap. rewrite orb_true_r. auto.
    + apply Z.eqb_neq in E.
      assert (Hne : type <> pool_type.heap) by (intros ?; auto).
      right. unfold served_by_heap.
      destruct type; try contradiction; cbn [pool_type.eqb orb]; auto.
  - intros Hne. unfold served_by_heap.
    destruct type; try contradiction; cbn [pool_type.eqb orb];
      destruct (p =? 0); split; intros H; reflexivity || discriminate.
  - intros ->. reflexivity.
Qed.

(** * Concurrent arena-direct allocation *)

Lemma count_if_nonneg f ts : 0 <= count_if f ts.
Proof. induction ts as [| t ts IH]; cbn [count_if]; [lia |]. destruct (f t); lia. Qed.

Lemma count_if_insert f ts i t t' :
  ts !! i = Some t ->
  count_if f (<[i := t']> ts)
    = count_if f ts - (if f t then 1 else 0) + (if f t' then 1 else 0).
Proof.
  revert i. induction ts as [| a ts IH]; intros i Hi; [discriminate |].
  destruct i as [| i].
  - injection Hi as ->.
    change (<[0%nat := t']> (t :: ts)) with (t' :: ts). cbn [count_if]. lia.
  - change (<[S i := t']> (a :: ts)) with (a :: <[i := t']> ts).
    change ((a :: ts) !! S i) with (ts !! i) in Hi.
    cbn [count_if]. rewrite (IH i Hi). lia.
Qed.

Lemma debts_insert c ts i t t' :
  ts !! i = Some t ->
  debts c (<[i := t']> ts) = debts c ts - debt c t + debt c t'.
Proof.
  revert i. induction ts as [| a ts IH]; intros i Hi; [discriminate |].
  destruct i as [| i].
  - injection Hi as ->.
    change (<[0%nat := t']> (t :: ts)) with (t' :: ts). cbn [debts]. lia.
  - change (<[S i := t']> (a :: ts)) with (a :: <[i := t']> ts).
    change ((a :: ts) !! S i) with (ts !! i) in Hi.
    cbn [debts]. rewrite (IH i Hi). lia.
Qed.

Lemma debts_nonneg c ts : 0 <= debts c ts.
Proof.
  induction ts as [| t ts IH]; cbn [debts]; [lia |].
  destruct t; cbn [debt]; try lia. destruct (_ =? _); lia.
Qed.

(** Moving the cursor can only turn pending compare-and-swaps stale. *)
Lemma debts_shift c c' ts : debts c' ts <= debts c ts + 2 * pending ts.
Proof.
  unfold pending. induction ts as [| t ts IH]; cbn [debts count_if]; [lia |].
  destruct t; cbn [debt arena_threads.finished negb]; try lia.
  destruct (cur_next =? c'), (cur_next =? c); lia.
Qed.

Lemma served_pending ts :
  Forall (fun t => t <> arena_threads.returned_heap) ts ->
  served ts + pending ts = Z.of_nat (length ts).
Proof.
  unfold served, pending. induction 1 as [| t ts Ht _ IH]; [reflexivity |].
  cbn [count_if length]. destruct t; cbn [is_arena arena_threads.finished negb];
    try lia. contradiction.
Qed.

Lemma debts_repeat c n : debts c (repeat arena_threads.at_read n) = 2 * Z.of_nat n.
Proof. induction n as [| n IH]; cbn [repeat debts debt]; lia. Qed.

Lemma count_if_repeat f t n :
  count_if f (repeat t n) = if f t then Z.of_nat n else 0.
Proof.
  induction n as [| n IH]; cbn [repeat count_if]; [destruct (f t); reflexivity |].
  rewrite IH. destruct (f t); lia.
Qed.

Lemma pending_positive ts i t :
  ts !! i = Some t -> arena_threads.finished t = false -> 1 <= pending ts.
Proof.
  intros Hi Hfin. unfold pending. revert i Hi.
  induction ts as [| a ts IH]; intros i Hi; [discriminate |].
  cbn [count_if].
  pose proof (count_if_nonneg (fun t => negb (arena_threads.finished t)) ts).
  destruct i as [| i].
  - injection Hi as ->. rewrite Hfin. cbn [negb]. lia.
  - change ((a :: ts) !! S i) with (ts !! i) in Hi.
    specialize (IH i Hi). destruct (negb _); lia.
Qed.

Lemma potential_nonneg s : 0 <= potential s.
Proof.
  unfold potential.
  pose proof (debts_nonneg (fixed_pool.next (fst s)) (snd s)). nia.
Qed.

Section interleavings.

Variables PoolSize frag c0 r : Z.
Variable n : nat.
Hypothesis cursor_non_null : 0 < c0.
Hypothesis size_non_negative : 0 <= r.
Hypothesis all_fit : c0 + Z.of_nat n * r <= frag + PoolSize.
Hypothesis arena_in_address_space : frag + PoolSize < 4294967296.

Let inv := reachable_inv PoolSize frag c0 r n.

Lemma inv_no_heap s :
  inv s -> Forall (fun t => t <> arena_threads.returned_heap) (snd s).
Proof.
  intros (_ & _ & _ & Hok & _). eapply Forall_impl; [exact Hok |].
  intros t Ht ->. exact Ht.
Qed.

(** A pending caller reads a cursor that leaves room for its request. *)
Lemma inv_room s i t :
  inv s -> snd s !! i = Some t -> arena_threads.finished t = false ->
  c0 <= fixed_pool.next (fst s) /\
  fixed_pool.next (fst s) + r <= frag + PoolSize /\
  1 <= pending (snd s).
Proof.
  intros Hinv Hi Hfin.
  pose proof (served_pending _ (inv_no_heap s Hinv)) as Hsum.
  destruct Hinv as (Hlen & _ & Hnext & _).
  pose proof (pending_positive _ _ _ Hi Hfin) as Hp.
  pose proof (count_if_nonneg is_arena (snd s)) as Hs. fold (served (snd s)) in Hs.
  rewrite Hlen in Hsum. rewrite Hnext. nia.
Qed.

Lemma step_preserves i s s' :
  inv s -> arena_threads.step_at PoolSize r i s = Some s' ->
  inv s' /\ potential s' + 1 <= potential s.
Proof.
  intros Hinv Hstep. destruct s as [st ts]. unfold arena_threads.step_at in Hstep.
  cbn [fst snd] in Hstep.
  destruct (ts !! i) as [t |] eqn:Hi; [| discriminate].
  destruct t as [| c | p |]; cbn [arena_threads.thread_step] in Hstep;
    try discriminate.
  - (* the thread reads the cursor *)
    destruct (inv_room (st, ts) i _ Hinv Hi eq_refl) as (Hlo & Hhi & Hp).
    cbn [fst snd] in Hlo, Hhi, Hp.
    pose proof Hinv as (Hlen & Hfrag & Hnext & Hok & Hdis).
    cbn [fst snd] in Hlen, Hfrag, Hnext, Hok, Hdis.
    rewrite Hfrag in Hstep.
    rewrite (wrap_small (fixed_pool.next st + r)) in Hstep by lia.
    rewrite (wrap_small (frag + PoolSize)) in Hstep by lia.
    destruct (fixed_pool.next st + r >? frag + PoolSize) eqn:E;
      [apply Z.gtb_lt in E; lia |].
    injection Hstep as <-. split.
    + repeat split; cbn [fst snd].
      * rewrite length_insert. assumption.
      * assumption.
      * unfold served. rewrite (count_if_insert _ _ _ _ _ Hi).
        cbn [is_arena]. fold (served ts). lia.
      * apply Forall_insert; [assumption | lia].
      * intros a b p q Hab Ha Hb.
        destruct (Nat.eq_dec a i) as [-> | Hai].
        { rewrite list_lookup_insert_eq in Ha by (eapply lookup_lt_Some; eassumption).
          discriminate. }
        destruct (Nat.eq_dec b i) as [-> | Hbi].
        { rewrite list_lookup_insert_eq in Hb by (eapply lookup_lt_Some; eassumption).
          discriminate. }
        rewrite list_lookup_insert_ne in Ha, Hb by congruence.
        exact (Hdis a b p q Hab Ha Hb).
    + unfold potential, pending. cbn [fst snd].
      rewrite (debts_insert _ _ _ _ _ Hi), (count_if_insert _ _ _ _ _ Hi).
      cbn [debt arena_threads.finished negb]. rewrite Z.eqb_refl. lia.
  - (* the thread executes the compare-and-swap *)
    destruct (inv_room (st, ts) i _ Hinv Hi eq_refl) as (Hlo & Hhi & Hp).
    cbn [fst snd] in Hlo, Hhi, Hp.
    pose proof Hinv as (Hlen & Hfrag & Hnext & Hok & Hdis).
    cbn [fst snd] in Hlen, Hfrag, Hnext, Hok, Hdis.
    unfold fixed_pool.cas in Hstep.
    destruct (fixed_pool.next st =? c) eqn:E;
      [apply Z.eqb_eq in E | apply Z.eqb_neq in E].
    + (* it succeeds *)
      subst c. rewrite wrap_small in Hstep by lia.
      destruct (fixed_pool.next st =? 0) eqn:E0;
        [apply Z.eqb_eq in E0; lia | clear E0].
      injection Hstep as <-. split.
      * repeat split; cbn [fst snd fixed_pool.set_next fixed_pool.next
                             fixed_pool.frag_buffer].
        -- rewrite length_insert. assumption.
        -- assumption.
        -- unfold served. rewrite (count_if_insert _ _ _ _ _ Hi).
           cbn [is_arena]. fold (served ts). lia.
        -- apply Forall_insert; [| lia].
           eapply Forall_impl; [exact Hok |].
           intros [| c | q |]; cbn beta iota; lia.
        -- intros a b p q Hab Ha Hb.
           assert (Hold : forall k x, k <> i ->
                     ts !! k = Some (arena_threads.returned_arena x) ->
                     x + r <= fixed_pool.next st).
           { intros k x _ Hk.
             pose proof (Forall_lookup_1 _ _ _ _ Hok Hk) as Hx.
             cbn beta iota in Hx. lia. }
           destruct (Nat.eq_dec a i) as [-> | Hai];
             destruct (Nat.eq_dec b i) as [-> | Hbi]; try congruence.
           ++ rewrite list_lookup_insert_eq in Ha
                by (eapply lookup_lt_Some; eassumption).
              rewrite list_lookup_insert_ne in Hb by congruence.
              injection Ha as <-. right. eapply Hold; eassumption.
           ++ rewrite list_lookup_insert_eq in Hb
                by (eapply lookup_lt_Some; eassumption).
              rewrite list_lookup_insert_ne in Ha by congruence.
              injection Hb as <-. left. eapply Hold; eassumption.
           ++ rewrite list_lookup_insert_ne in Ha, Hb by congruence.
              exact (Hdis a b p q Hab Ha Hb).
      * unfold potential. cbn [fst snd fixed_pool.set_next fixed_pool.next].
        pose proof (debts_shift (fixed_pool.next st) (fixed_pool.next st + r)
                      (<[i := arena_threads.returned_arena (fixed_pool.next st)]> ts))
          as Hshift.
        rewrite (debts_insert (fixed_pool.next st) _ _ _ _ Hi) in Hshift.
        unfold pending in *. rewrite (count_if_insert _ _ _ _ _ Hi) in *.
        cbn [debt arena_threads.finished negb] in *.
        rewrite Z.eqb_refl in Hshift. nia.
    + (* it fails: somebody else moved the cursor *)
      replace (0 =? 0) with true in Hstep by reflexivity.
      injection Hstep as <-. split.
      * repeat split; cbn [fst snd].
        -- rewrite length_insert. assumption.
        -- assumption.
        -- unfold served. rewrite (count_if_insert _ _ _ _ _ Hi).
           cbn [is_arena]. fold (served ts). lia.
        -- apply Forall_insert; [assumption | exact I].
        -- intros a b p q Hab Ha Hb.
           destruct (Nat.eq_dec a i) as [-> | Hai].
           { rewrite list_lookup_insert_eq in Ha by (eapply lookup_lt_Some; eassumption).
             discriminate. }
           destruct (Nat.eq_dec b i) as [-> | Hbi].
           { rewrite list_lookup_insert_eq in Hb by (eapply lookup_lt_Some; eassumption).
             discriminate. }
           rewrite list_lookup_insert_ne in Ha, Hb by congruence.
           exact (Hdis a b p q Hab Ha Hb).
      * unfold potential, pending. cbn [fst snd].
        rewrite (debts_insert _ _ _ _ _ Hi), (count_if_insert _ _ _ _ _ Hi).
        cbn [debt arena_threads.finished negb].
        destruct (c =? fixed_pool.next st) eqn:E';
          [apply Z.eqb_eq in E'; congruence | lia].
Qed.

Lemma run_preserves schedule : forall s s',
  inv s -> arena_threads.run PoolSize r schedule s = Some s' ->
  inv s' /\ potential s' + Z.of_nat (length schedule) <= potential s.
Proof.
  induction schedule as [| i schedule IH]; intros s s' Hinv Hrun.
  - injection Hrun as <-. cbn [length]. split; [assumption | lia].
  - cbn [arena_threads.run] in Hrun.
    destruct (arena_threads.step_at PoolSize r i s) as [s1 |] eqn:Hstep;
      [| discriminate].
    destruct (step_preserves i s s1 Hinv Hstep) as [Hinv1 Hpot1].
    destruct (IH s1 s' Hinv1 Hrun) as [Hinv' Hpot'].
    split; [assumption |]. cbn [length]. lia.
Qed.

Lemma initial_inv st0 :
  fixed_pool.next st0 = c0 -> fixed_pool.frag_buffer st0 = frag ->
  inv (st0, repeat arena_threads.at_read n).
Proof.
  intros Hnext Hfrag. repeat split; cbn [fst snd].
  - apply repeat_length.
  - assumption.
  - unfold served. rewrite count_if_repeat. cbn [is_arena]. lia.
  - apply List.Forall_forall. intros t Ht.
    apply repeat_spec in Ht. subst t. exact I.
  - intros i j p q _ Hi _. apply list_elem_of_lookup_2 in Hi.
    apply list_elem_of_In in Hi. apply repeat_spec in Hi. discriminate.
Qed.

End interleavings.

Lemma align4_nonneg b : 0 <= word.align4 b.
Proof.
  unfold word.align4. apply Z.land_nonneg. left. apply wrap_range.
Qed.

Lemma pending_zero ts :
  Forall (fun t => arena_threads.finished t = true) ts -> pending ts = 0.
Proof.
  unfold pending. induction 1 as [| t ts Ht _ IH]; [reflexivity |].
  cbn [count_if]. rewrite Ht, IH. reflexivity.
Qed.

Lemma step_at_progress PoolSize r i st ts t :
  ts !! i = Some t -> arena_threads.finished t = false ->
  exists s', arena_threads.step_at PoolSize r i (st, ts) = Some s'.
Proof.
  intros Hi Hfin. unfold arena_threads.step_at. cbn [fst snd]. rewrite Hi.
  destruct t as [| c | p |]; try discriminate; cbn [arena_threads.thread_step].
  - destruct (_ >? _); eauto.
  - destruct (fixed_pool.cas st c (word.wrap (c + r))); eauto.
Qed.

(** The loop as one caller runs it alone is the thread of [arena_threads]
    scheduled without interruption. *)
Lemma bump_is_single_thread PoolSize fuel st alloc_bytes p st' :
  0 < fixed_pool.next st ->
  fixed_pool.bump PoolSize (S fuel) st alloc_bytes = Some (p, st') ->
  exists schedule,
    arena_threads.run PoolSize alloc_bytes schedule (st, [arena_threads.at_read])
    = Some (st', [if p =? 0 then arena_threads.returned_heap
                  else arena_threads.returned_arena p]).
Proof.
  intros Hnext Hbump. rewrite bump_once in Hbump by assumption.
  destruct (word.wrap (fixed_pool.next st + alloc_bytes)
            >? word.wrap (fixed_pool.frag_buffer st + PoolSize)) eqn:E;
    injection Hbump as <- <-.
  - exists [0%nat]. cbn [arena_threads.run]. unfold arena_threads.step_at.
    cbn [fst snd]. change ([arena_threads.at_read] !! 0%nat)
      with (Some arena_threads.at_read).
    cbn [arena_threads.thread_step]. rewrite E. reflexivity.
  - assert (Hz : (fixed_pool.next st =? 0) = false) by (apply Z.eqb_neq; lia).
    exists [0%nat; 0%nat]. cbn [arena_threads.run]. unfold arena_threads.step_at.
    cbn [fst snd]. change ([arena_threads.at_read] !! 0%nat)
      with (Some arena_threads.at_read).
    cbn [arena_threads.thread_step]. rewrite E.
    change (<[0%nat := arena_threads.at_cas (fixed_pool.next st)]>
              [arena_threads.at_read])
      with [arena_threads.at_cas (fixed_pool.next st)].
    cbn [fst snd].
    change ([arena_threads.at_cas (fixed_pool.next st)] !! 0%nat)
      with (Some (arena_threads.at_cas (fixed_pool.next st))).
    cbn [arena_threads.thread_step]. unfold fixed_pool.cas.
    rewrite Z.eqb_refl, Hz. reflexivity.
Qed.

Lemma potential_initial st0 n :
  potential (st0, repeat arena_threads.at_read n)
    = 2 * Z.of_nat n + Z.of_nat n * Z.of_nat n.
Proof.
  unfold potential, pending. cbn [fst snd].
  rewrite debts_repeat, count_if_repeat. reflexivity.
Qed.

(** C8 (as amended): let [n] callers run the arena-direct path concurrently,
    each for [b] bytes, and let [r] be [b] rounded up to a multiple of 4.  If
    [n * r] does not exceed the capacity left behind the cursor, then in
    every interleaving of the callers' atomic steps: at most [n * n + 2 * n]
    steps are taken, a caller that has not returned can always take its next
    step, no caller falls back on the heap, the ranges [[p, p + r)] handed
    out lie between the initial and the current cursor and are pairwise
    disjoint, and once all callers have returned each holds an arena range
    and the cursor is the initial cursor plus [n * r]. *)
Theorem arena_monotonic (PoolSize : Z) (st0 : fixed_pool.globals) (b : Z)
    (n : nat) (schedule : list nat) (st : fixed_pool.globals)
    (ts : list arena_threads.thread) :
  0 < fixed_pool.frag_buffer st0 <= fixed_pool.next st0 ->
  fixed_pool.next st0 + Z.of_nat n * word.align4 b
    <= fixed_pool.frag_buffer st0 + PoolSize ->
  fixed_pool.frag_buffer st0 + PoolSize < 4294967296 ->
  arena_threads.run PoolSize (word.align4 b) schedule
    (st0, repeat (arena_threads.enter PoolSize (word.align4 b)) n)
    = Some (st, ts) ->
  length ts = n /\
  Z.of_nat (length schedule) <= Z.of_nat n * Z.of_nat n + 2 * Z.of_nat n /\
  (forall i t, ts !! i = Some t -> arena_threads.finished t = false ->
     exists s',
       arena_threads.step_at PoolSize (word.align4 b) i (st, ts) = Some s') /\
  Forall (fun t => t <> arena_threads.returned_heap) ts /\
  (forall i p, ts !! i = Some (arena_threads.returned_arena p) ->
     fixed_pool.next st0 <= p /\ p + word.align4 b <= fixed_pool.next st) /\
  (forall i j p q, i <> j ->
     ts !! i = Some (arena_threads.returned_arena p) ->
     ts !! j = Some (arena_threads.returned_arena q) ->
     p + word.align4 b <= q \/ q + word.align4 b <= p) /\
  (Forall (fun t => arena_threads.finished t = true) ts ->
     Forall (fun t => is_arena t = true) ts /\
     fixed_pool.next st = fixed_pool.next st0 + Z.of_nat n * word.align4 b).
Proof.
  set (r := word.align4 b). intros Hcur Hfit Hend Hrun.
  pose proof (align4_nonneg b) as Hr. fold r in Hr.
  assert (Henter : repeat (arena_threads.enter PoolSize r) n
                   = repeat arena_threads.at_read n).
  { destruct n as [| n']; [reflexivity |]. f_equal.
    unfold arena_threads.enter.
    destruct (r <=? PoolSize) eqn:E; [reflexivity |].
    apply Z.leb_gt in E. nia. }
  rewrite Henter in Hrun.
  assert (Hc0 : 0 < fixed_pool.next st0) by lia.
  pose proof (initial_inv PoolSize (fixed_pool.frag_buffer st0)
                (fixed_pool.next st0) r n st0 eq_refl eq_refl) as Hinit.
  destruct (run_preserves PoolSize (fixed_pool.frag_buffer st0)
              (fixed_pool.next st0) r n Hc0 Hr Hfit Hend schedule _ _ Hinit Hrun)
    as [Hinv Hpot].
  pose proof (potential_nonneg (st, ts)) as Hpos.
  pose proof (inv_no_heap PoolSize (fixed_pool.frag_buffer st0)
                (fixed_pool.next st0) r n _ Hinv) as Hnoheap.
  pose proof (served_pending _ Hnoheap) as Hsum.
  destruct Hinv as (Hlen & Hfrag & Hnext & Hok & Hdis).
  cbn [fst snd] in Hlen, Hfrag, Hnext, Hok, Hdis, Hnoheap, Hsum.
  split; [assumption |]. split.
  { rewrite potential_initial in Hpot. lia. }
  split; [intros i t; apply step_at_progress |].
  split; [assumption |]. split.
  { intros i p Hi. pose proof (Forall_lookup_1 _ _ _ _ Hok Hi) as Hp.
    cbn beta iota in Hp. exact Hp. }
  split; [assumption |].
  intros Hall. split.
  - rewrite List.Forall_forall in *. intros t Ht.
    specialize (Hall t Ht). specialize (Hnoheap t Ht).
    destruct t; try discriminate; [reflexivity | contradiction].
  - rewrite (pending_zero ts Hall), Hlen in Hsum. rewrite Hnext. nia.
Qed.

(** * The claims at concrete inputs *)

Example integer_log_values :
  map pool_set.integer_log [0; 1; 2; 3; 4; 5; 8; 9; 16; 17; 4294967292]
  = [0; 0; 1; 2; 2; 3; 3; 4; 4; 5; 32].
Proof. reflexivity. Qed.

Example pool_index_values :
  map pool_set.pool_index [1; 3; 4; 5; 8; 9; 16; 17; 32]
  = [0; 0; 0; 1; 1; 2; 2; 3; 3].
Proof. reflexivity. Qed.

Example init_then_alloc :
  let '(bp, m) := block_pool.init 8 3 64 zero_memory in
  fst (alloc_many 4 bp m) = [64; 72; 80; 0].
Proof. reflexivity. Qed.

(** ** C1 *)

Lemma size_class_mapping_witness :
  1 <= 6 <= 4294967292 /\
  pool_set.pool_index 6 = pool_set.integer_log (word.align4 6) - 2 /\
  pool_set.alloc (pool_set.mk [two_block_pool]) two_block_memory 6
    = (0, pool_set.mk [two_block_pool]).
Proof.
  assert (H : 1 <= 6 <= 4294967292) by lia.
  split; [exact H |].
  destruct (size_class_mapping (pool_set.mk [two_block_pool]) two_block_memory
              6 H) as (_ & _ & _ & Hidx & _ & _ & Hnone).
  split; [exact Hidx |]. apply Hnone. vm_compute. discriminate.
Defined.

(** The request size 4294967295 is not rounded up (the sum [size + 3] wraps
    and the rounded size is 0), its pool index is 4294967294 and not 30, and a
    pool set of 31 pools returns none for it although pool 30 has a free
    block and [4 * 2^29 < 4294967295 <= 4 * 2^30]. *)
Lemma size_class_mapping_wraps :
  let s := 4294967295 in
  let ps := pool_set.mk (repeat two_block_pool 31) in
  1 <= s /\
  ~ is_round_up4 s (word.align4 s) /\
  0 <= 30 < pool_set.pool_count ps /\
  2 * 2 ^ 30 < s <= 4 * 2 ^ 30 /\
  pool_set.pool_index s <> 30 /\
  fst (block_pool.alloc two_block_pool two_block_memory) <> 0 /\
  pool_set.alloc ps two_block_memory s = (0, ps).
Proof.
  cbv zeta. split; [lia |]. split.
  { unfold is_round_up4. change (word.align4 4294967295) with 0. lia. }
  split; [unfold pool_set.pool_count; simpl; lia |].
  split; [change (2 ^ 30) with 1073741824; lia |].
  split; [vm_compute; discriminate |].
  split; [vm_compute; discriminate |].
  vm_compute. reflexivity.
Qed.

(** ** C2 *)

Lemma dealloc_routing_witness :
  fixed_pool.dealloc 1024 small_arena 1000
    = Done (fixed_pool.set_pools small_arena
              (pool_set.mk [block_pool.mk 4 4 1000 1000 1016])
              (memory.store32 (fixed_pool.mem small_arena) 1000 1004), []) /\
  fixed_pool.dealloc 1024 small_arena 1500 = Done (small_arena, []) /\
  fixed_pool.dealloc 1024 small_arena 5000 = Done (small_arena, [ev_free 5000]).
Proof.
  assert (H1 : fixed_pool.released small_arena = false) by reflexivity.
  assert (H2 : 0 <= fixed_pool.frag_buffer small_arena) by (simpl; lia).
  assert (H3 : 0 <= 1024) by lia.
  assert (H4 : fixed_pool.frag_buffer small_arena + 1024 < 4294967296)
    by (simpl; lia).
  split; [| split].
  - destruct (dealloc_routing 1024 small_arena 1000 H1 H2 H3 H4)
      as (Hclaimed & _ & _).
    destruct (Hclaimed [] (block_pool.mk 4 3 1004 1000 1016) [])
      as [_ Hpush].
    + simpl; lia.
    + reflexivity.
    + constructor.
    + reflexivity.
    + apply Hpush. simpl. lia.
  - destruct (dealloc_routing 1024 small_arena 1500 H1 H2 H3 H4)
      as (_ & Hunclaimed & _).
    apply Hunclaimed; [simpl; lia |].
    repeat constructor.
  - destruct (dealloc_routing 1024 small_arena 5000 H1 H2 H3 H4)
      as (_ & _ & Houtside).
    apply Houtside. simpl. lia.
Defined.

(** ** C3 *)

Lemma block_pool_correctness_witness :
  let bp := fst (block_pool.init 4 2 16 zero_memory) in
  let m' := snd (block_pool.init 4 2 16 zero_memory) in
  fst (alloc_many 2 bp m') = [16; 20] /\
  NoDup (fst (alloc_many 2 bp m')) /\
  fst (block_pool.alloc (snd (alloc_many 2 bp m')) m') = 0.
Proof.
  cbv zeta.
  destruct (block_pool_correctness 4 2 16 zero_memory)
    as (_ & _ & Hnd & _ & Hlast); try lia.
  split; [vm_compute; reflexivity |].
  split; [exact Hnd | exact Hlast].
Defined.

(** ** C4 *)

Lemma two_block_free_list :
  pool_free_list two_block_pool two_block_memory [16; 20].
Proof.
  unfold pool_free_list. cbn [free_chain spaced length].
  split; [vm_compute; tauto |].
  split; [reflexivity |].
  split; [simpl; lia |].
  unfold apart. repeat split; try lia; repeat constructor; lia.
Defined.

Lemma lifo_reuse_witness :
  exists bp1 bp2 m2 bp3 again,
    alloc_many 2 two_block_pool two_block_memory = ([16; 20], bp1) /\
    dealloc_many [16; 20] bp1 two_block_memory = Done (bp2, m2) /\
    alloc_many 2 bp2 m2 = (again, bp3) /\
    Permutation again [16; 20] /\
    block_pool.free_count bp2 = block_pool.free_count two_block_pool /\
    block_pool.free_count bp3 = block_pool.free_count bp1.
Proof.
  destruct (lifo_reuse two_block_pool two_block_memory [16; 20] [16; 20] 2
              two_block_free_list)
    as (bp1 & bp2 & m2 & bp3 & again & H1 & H2 & H3 & H4 & _ & _ & _ & H5 & H6).
  - simpl. lia.
  - reflexivity.
  - exists bp1, bp2, m2, bp3, again. repeat split; assumption.
Defined.

(** With one block allocated from a pool of one block, [free_count] is 0
    before the block is freed and 1 afterwards: the frees do not bring it back
    to its value from before the frees. *)
Lemma lifo_reuse_free_count_counterexample :
  let bp := fst (block_pool.init 4 1 16 zero_memory) in
  let m := snd (block_pool.init 4 1 16 zero_memory) in
  let got := fst (alloc_many 1 bp m) in
  let bp1 := snd (alloc_many 1 bp m) in
  got = [16] /\
  block_pool.free_count bp1 = 0 /\
  exists bp2 m2,
    dealloc_many got bp1 m = Done (bp2, m2) /\
    block_pool.free_count bp2 = 1 /\
    block_pool.free_count bp2 <> block_pool.free_count bp1.
Proof.
  cbv zeta. split; [reflexivity |]. split; [reflexivity |].
  eexists _, _. split; [reflexivity |]. split; [reflexivity |].
  vm_compute. discriminate.
Qed.

(** ** C5 *)

Lemma init_threads_free_list_witness :
  memory.load32 (snd (block_pool.init 4 2 16 zero_memory))
    (block_pool.block_addr 16 4 0) = block_pool.block_addr 16 4 1 /\
  block_pool.free_count (fst (block_pool.init 4 2 16 zero_memory)) = 2.
Proof.
  destruct (init_threads_free_list 4 2 16 zero_memory)
    as (_ & _ & Hlinks & _ & _ & Hcount & _); try lia.
  split; [apply (Hlinks 0); lia | exact Hcount].
Defined.

(** In memory whose bytes are all 255, [init] leaves the link word of the last
    block at 4294967295: it is not the null sentinel. *)
Lemma init_last_link_counterexample :
  let m := fun _ : Z => 255 in
  let m' := snd (block_pool.init 4 2 16 m) in
  block_pool.block_addr 16 4 (2 - 1) = 20 /\
  memory.load32 m' 20 = 4294967295 /\
  memory.load32 m' 20 <> 0.
Proof.
  cbv zeta. split; [reflexivity |]. split; [reflexivity |].
  vm_compute. discriminate.
Qed.

(** ** C6 *)

Lemma dealloc_after_release_witness :
  let st' := fst (fixed_pool.release small_arena) in
  fixed_pool.dealloc 1024 st' 1000 = Done (st', []).
Proof.
  cbv zeta.
  apply (dealloc_after_release 1024 small_arena 1000); simpl; lia.
Defined.

(** After [release()], [dealloc] of the size-classed pointer 1000, which lies
    inside the arena, calls nothing: the event list is empty, so the pointer
    does not reach [free]. *)
Lemma dealloc_after_release_counterexample :
  let st' := fst (fixed_pool.release small_arena) in
  fixed_pool.frag_buffer st' <= 1000 < fixed_pool.frag_buffer st' + 1024 /\
  block_pool.in_range (block_pool.mk 4 3 1004 1000 1016) 1000 = true /\
  fixed_pool.dealloc 1024 st' 1000 = Done (st', []) /\
  fixed_pool.dealloc 1024 st' 1000 <> Done (st', [ev_free 1000]).
Proof.
  cbv zeta. split; [simpl; lia |]. split; [reflexivity |].
  split; [reflexivity |]. vm_compute. discriminate.
Qed.

(** ** C7 *)

(** The scenario of the specification: capacity 16, request of 20 bytes. *)
Lemma oversized_fixed_request_witness :
  fixed_pool.alloc 16 0 7777 empty_arena 20 pool_type.fixed =
    Some (7777, empty_arena,
          [ev_malloc 20; ev_log "Fixed" 20 7777 "succeeded" "(fallback on heap)"]).
Proof.
  apply (oversized_fixed_request 16 0 7777 empty_arena 20 20).
  - lia.
  - split; [exists 5; reflexivity | lia].
  - lia.
Defined.

(** A request of [2^32 - 1] bytes in an arena of 16 bytes: rounded up to a
    multiple of 4 the size is [2^32], far beyond the capacity, but the
    rounding is computed in 32 bits and yields 0; the request is served
    from the arena (the cursor is returned) and [malloc] is not called. *)
Lemma oversized_fixed_request_wraps :
  is_round_up4 4294967295 4294967296 /\
  16 < 4294967296 /\
  fixed_pool.alloc 16 1 7777 empty_arena 4294967295 pool_type.fixed =
    Some (1000, empty_arena,
          [ev_log "Fixed" 4294967295 1000 "succeeded" ""]).
Proof.
  split; [split; [exists 1073741824; reflexivity | lia] |].
  split; [lia | reflexivity].
Qed.

(** ** C8 *)

Lemma arena_monotonic_witness :
  arena_threads.run 16 (word.align4 6) [0; 1; 0; 1; 1; 1]%nat
    (empty_arena, repeat (arena_threads.enter 16 (word.align4 6)) 2)
  = Some (fixed_pool.set_next empty_arena 1016,
          [arena_threads.returned_arena 1000;
           arena_threads.returned_arena 1008]) /\
  fixed_pool.next (fixed_pool.set_next empty_arena 1016)
  = fixed_pool.next empty_arena + Z.of_nat 2 * word.align4 6.
Proof.
  assert (Hrun :
    arena_threads.run 16 (word.align4 6) [0; 1; 0; 1; 1; 1]%nat
      (empty_arena, repeat (arena_threads.enter 16 (word.align4 6)) 2)
    = Some (fixed_pool.set_next empty_arena 1016,
            [arena_threads.returned_arena 1000;
             arena_threads.returned_arena 1008])) by reflexivity.
  split; [exact Hrun |].
  assert (H1 : 0 < fixed_pool.frag_buffer empty_arena
                <= fixed_pool.next empty_arena) by (simpl; lia).
  assert (H2 : fixed_pool.next empty_arena + Z.of_nat 2 * word.align4 6
               <= fixed_pool.frag_buffer empty_arena + 16)
    by (vm_compute; discriminate).
  assert (H3 : fixed_pool.frag_buffer empty_arena + 16 < 4294967296)
    by (simpl; lia).
  destruct (arena_monotonic 16 empty_arena 6 2 [0; 1; 0; 1; 1; 1]%nat _ _
              H1 H2 H3 Hrun) as (_ & _ & _ & _ & _ & _ & Hall).
  apply Hall. repeat constructor.
Defined.

(** Three callers of 2 bytes each in an arena of 8 bytes: [3 * 2 <= 8], yet
    each call takes 4 bytes, the third caller is served by the heap and the
    cursor ends at the initial cursor plus 8, not plus 6. *)
Lemma arena_monotonic_counterexample :
  Z.of_nat 3 * 2 <= 8 /\
  arena_threads.run 8 (word.align4 2) [0; 0; 1; 1; 2]%nat
    (empty_arena, repeat (arena_threads.enter 8 (word.align4 2)) 3)
  = Some (fixed_pool.set_next empty_arena 1008,
          [arena_threads.returned_arena 1000;
           arena_threads.returned_arena 1004;
           arena_threads.returned_heap]) /\
  fixed_pool.next (fixed_pool.set_next empty_arena 1008)
  <> fixed_pool.next empty_arena + Z.of_nat 3 * 2.
Proof.
  split; [simpl; lia |]. split; [reflexivity |]. simpl. lia.
Qed.

(** ** C9 *)

Lemma alloc_trace_witness :
  exists p st' heap_calls fallback,
    fixed_pool.alloc 1024 2 7777 empty_arena 5 pool_type.fixed =
      Some (p, st',
            heap_calls ++
            [ev_log "Fixed" 5 p
               (if negb (p =? 0) then "succeeded" else "failed")
               (if fallback : bool then "(fallback on heap)" else "")]).
Proof.
  destruct (alloc_trace 1024 0 7777 empty_arena 5 pool_type.fixed)
    as (p & st' & heap_calls & fallback & Halloc & _).
  - reflexivity.
  - intros _ H. vm_compute in H. discriminate.
  - exists p, st', heap_calls, fallback. exact Halloc.
Defined.

(** Three calls with diagnostics enabled.  A plain heap request of 5 bytes:
    [malloc] is asked for the rounded size 8, the trace carries 5, and it
    carries the fallback text although the heap is what was requested.  An
    arena-direct request of 0 bytes with a null cursor: no number of
    iterations leaves the loop, so no trace is emitted. *)
Lemma alloc_trace_counterexample :
  word.align4 5 = 8 /\
  fixed_pool.alloc 1024 1 7777 empty_arena 5 pool_type.heap =
    Some (7777, empty_arena,
          [ev_malloc 8;
           ev_log "Heap " 5 7777 "succeeded" "(fallback on heap)"]) /\
  fixed_pool.alloc 1024 1 7777 empty_arena 5 pool_type.fixed =
    Some (1000, fixed_pool.set_next empty_arena 1008,
          [ev_log "Fixed" 5 1000 "succeeded" ""]) /\
  fixed_pool.debug (fixed_pool.set_next empty_arena 0) = true /\
  (forall fuel,
     fixed_pool.alloc 1024 fuel 7777 (fixed_pool.set_next empty_arena 0) 0
       pool_type.fixed = None).
Proof.
  split; [reflexivity |]. split; [reflexivity |]. split; [reflexivity |].
  split; [reflexivity |].
  intros fuel. unfold fixed_pool.alloc.
  change (word.align4 0) with 0. cbn [pool_type.eqb andb Z.leb Z.compare].
  assert (Hloop : fixed_pool.bump 1024 fuel
                    (fixed_pool.set_next empty_arena 0) 0 = None).
  { induction fuel as [| fuel IH]; [reflexivity | exact IH]. }
  rewrite Hloop. reflexivity.
Qed.

(** ** C10 *)

Lemma zero_size_request_witness :
  pool_set.alloc (fixed_pool.the_pool_set small_arena)
    (fixed_pool.mem small_arena) 0
    = (0, fixed_pool.the_pool_set small_arena) /\
  fixed_pool.alloc 1024 1 7777 small_arena 0 pool_type.logarithmic =
    Some (7777, small_arena,
          [ev_malloc 0; ev_log " Log " 0 7777 "succeeded" "(fallback on heap)"]).
Proof.
  destruct (zero_size_request 1024 1 7777 small_arena)
    as (_ & _ & _ & Hps & Halloc).
  - vm_compute. discriminate.
  - split; [exact Hps | exact Halloc].
Defined.

(** * Further properties of the code *)

(** ** [integer_log] and the rounding on the whole 32-bit range *)

(** X1: on every 32-bit word [integer_log] is the ceiling of the binary
    logarithm as the standard library defines it ([Z.log2_up], which is 0 at
    0 and at 1); for [x >= 1] the result is the least [k] with [2^k >= x],
    and it never exceeds 32. *)
Theorem integer_log_log2_up (x : Z) :
  0 <= x < 4294967296 ->
  pool_set.integer_log x = Z.log2_up x /\
  0 <= pool_set.integer_log x <= 32 /\
  (1 <= x -> is_ceil_log2 x (pool_set.integer_log x)).
Proof.
  intros Hx. destruct (Z.eq_dec x 0) as [-> | Hnz].
  { split; [reflexivity |]. split; [vm_compute; split; discriminate | lia]. }
  assert (Hpos : 0 < x < 4294967296) by lia.
  pose proof (integer_log_ceil x Hpos) as Hceil.
  assert (Hup : is_ceil_log2 x (Z.log2_up x)).
  { destruct (Z.eq_dec x 1) as [-> | Hne1].
    - repeat split; [vm_compute; discriminate | vm_compute; discriminate |].
      intros j Hj _. exact Hj.
    - destruct (Z.log2_up_spec x) as [Hlo Hhi]; [lia |].
      repeat split; [apply Z.log2_up_nonneg | assumption |].
      intros j Hj Hle.
      destruct (Z_le_dec (Z.log2_up x) j) as [| Hlt]; [assumption |].
      assert (2 ^ j <= 2 ^ Z.pred (Z.log2_up x))
        by (apply Z.pow_le_mono_r; lia).
      lia. }
  split; [apply (is_ceil_log2_unique x); assumption |].
  split; [| intros _; assumption].
  destruct Hceil as (H0 & _ & Hmin). split; [assumption |].
  apply Hmin; [lia |]. change (2 ^ 32) with 4294967296. lia.
Qed.

Lemma integer_log_log2_up_witness :
  pool_set.integer_log 1000 = Z.log2_up 1000 /\ pool_set.integer_log 1000 = 10.
Proof.
  split; [| reflexivity].
  apply (integer_log_log2_up 1000). lia.
Defined.

Lemma align4_idempotent n :
  0 <= n < 4294967296 -> word.align4 (word.align4 n) = word.align4 n.
Proof.
  intros Hn.
  assert (Hval : 0 <= word.align4 n <= 4294967292 /\ word.align4 n mod 4 = 0).
  { destruct (Z_le_dec n 4294967292) as [Hlo | Hhi].
    - rewrite align4_value by lia.
      split; [| rewrite Z.mul_comm; apply Z.mod_mul; lia].
      pose proof (Z.div_mod (n + 3) 4 ltac:(lia)).
      pose proof (Z.mod_pos_bound (n + 3) 4 ltac:(lia)). lia.
    - rewrite align4_wraps by lia. split; [lia | reflexivity]. }
  destruct Hval as [Hrange Hmod].
  rewrite (align4_value (word.align4 n)) by lia.
  pose proof (Z.div_mod (word.align4 n) 4 ltac:(lia)) as Hd.
  rewrite Hmod in Hd.
  replace (word.align4 n + 3) with (3 + word.align4 n / 4 * 4) by lia.
  rewrite Z.div_add by lia. change (3 / 4) with 0. lia.
Qed.


(** X2: the rounding [(n + 3) & ~3] on the whole 32-bit range.  The result
    is a multiple of 4 not above [2^32 - 4]; up to [2^32 - 4] it is the least
    multiple of 4 that is at least [n], and on the three largest words it
    wraps to 0.  Rounding again changes nothing, so [pool_set::alloc], which
    rounds the already rounded size handed over by [fixed_pool::alloc], picks
    the pool it would pick for the original size. *)
Theorem align4_total (n : Z) :
  0 <= n < 4294967296 ->
  0 <= word.align4 n <= 4294967292 /\
  word.align4 n mod 4 = 0 /\
  (n <= 4294967292 -> n <= word.align4 n < n + 4) /\
  (4294967292 < n -> word.align4 n = 0) /\
  word.align4 (word.align4 n) = word.align4 n /\
  pool_set.pool_index (word.align4 n) = pool_set.pool_index n.
Proof.
  intros Hn.
  assert (Hcases : n <= 4294967292 \/ 4294967292 < n) by lia.
  assert (Hval : 0 <= word.align4 n <= 4294967292 /\ word.align4 n mod 4 = 0).
  { destruct Hcases as [Hlo | Hhi].
    - rewrite align4_value by lia. split; [| rewrite Z.mul_comm; apply Z.mod_mul; lia].
      pose proof (Z.div_mod (n + 3) 4 ltac:(lia)).
      pose proof (Z.mod_pos_bound (n + 3) 4 ltac:(lia)). lia.
    - rewrite align4_wraps by lia. split; [lia | reflexivity]. }
  destruct Hval as [Hrange Hmod].
  pose proof (align4_idempotent n Hn) as Hidem.
  split; [assumption |]. split; [assumption |].
  split.
  { intros Hlo. destruct (align4_is_round_up n) as [_ H]; [lia | exact H]. }
  split; [intros Hhi; apply align4_wraps; lia |].
  split; [assumption |].
  unfold pool_set.pool_index. rewrite Hidem. reflexivity.
Qed.

Lemma align4_total_witness :
  word.align4 4294967290 = 4294967292 /\
  word.align4 (word.align4 4294967290) = word.align4 4294967290.
Proof.
  split; [reflexivity |].
  apply (align4_total 4294967290). lia.
Defined.

(** X3: the size classes, both ways.  For a request of 1 to [2^32 - 4]
    bytes the pool index is at most 30; it is 0 exactly for the sizes up to
    4, and it is [i >= 1] exactly for the sizes in [(2 * 2^i, 4 * 2^i]].  So
    a request never lands in a pool whose [4 * 2^i]-byte blocks are too
    small for it. *)
Theorem pool_index_class (s i : Z) :
  1 <= s <= 4294967292 -> 0 <= i ->
  0 <= pool_set.pool_index s <= 30 /\
  (pool_set.pool_index s = 0 <-> s <= 4) /\
  (1 <= i -> (pool_set.pool_index s = i <-> 2 * 2 ^ i < s <= 4 * 2 ^ i)) /\
  (pool_set.pool_index s = i -> s <= 4 * 2 ^ i).
Proof.
  intros Hs Hi.
  destruct (pool_index_value s Hs) as [Hidx Hrange].
  destruct (align4_is_round_up s) as [[q Hq] Hr]; [lia |].
  assert (Hx : 0 < word.align4 s < 4294967296) by lia.
  pose proof (integer_log_ceil _ Hx) as (Hk0 & Hk1 & Hk2).
  set (k := pool_set.integer_log (word.align4 s)) in *.
  assert (Hfits : forall j, 0 <= j -> pool_set.pool_index s = j ->
                    s <= 4 * 2 ^ j).
  { intros j Hj Hpj.
    assert (k = j + 2) as Hkj by lia. rewrite Hkj in Hk1.
    rewrite Z.pow_add_r in Hk1 by lia. change (2 ^ 2) with 4 in Hk1. lia. }
  assert (Hlow : forall j, 1 <= j -> pool_set.pool_index s = j ->
                   2 * 2 ^ j < s).
  { intros j Hj Hpj.
    destruct (Z_lt_dec (2 * 2 ^ j) s) as [| Hle]; [assumption |].
    exfalso.
    assert (Hpow : 2 ^ (j + 1) = 2 * 2 ^ j)
      by (rewrite Z.pow_add_r by lia; change (2 ^ 1) with 2; lia).
    assert (Hdiv : exists c, 2 * 2 ^ j = 4 * c).
    { exists (2 ^ (j - 1)).
      replace j with (j - 1 + 1) at 1 by lia.
      rewrite Z.pow_add_r by lia. change (2 ^ 1) with 2. lia. }
    destruct Hdiv as [c Hc].
    assert (word.align4 s <= 2 ^ (j + 1)) by lia.
    assert (k <= j + 1) by (apply Hk2; lia).
    lia. }
  split; [lia |]. split; [| split].
  - split.
    + intros H0. specialize (Hfits 0 ltac:(lia) H0).
      change (2 ^ 0) with 1 in Hfits. lia.
    + intros Hle. rewrite Hidx.
      assert (k <= 2); [| lia].
      apply Hk2; [lia |]. change (2 ^ 2) with 4. lia.
  - intros Hi1. split.
    + intros Hpi. split; [apply Hlow | apply Hfits]; assumption || lia.
    + intros Hc. apply pool_index_of_class; assumption.
  - apply Hfits. assumption.
Qed.

Lemma pool_index_class_witness :
  pool_set.pool_index 100 = 5 /\ 100 <= 4 * 2 ^ 5.
Proof.
  destruct (pool_index_class 100 5) as (_ & _ & Hiff & Hfit); [lia | lia |].
  assert (H : pool_set.pool_index 100 = 5).
  { apply Hiff; [lia |]. change (2 ^ 5) with 32. lia. }
  split; [exact H | exact (Hfit H)].
Defined.

(** ** One block pool: round trips and misuse *)

Lemma store32_load32_bytes m p a :
  memory.byte (memory.store32 m p (memory.load32 m p)) a = memory.byte m a.
Proof.
  destruct (Z_lt_dec a p) as [Hlo | Hge];
    [apply byte_store32_out; lia |].
  destruct (Z_le_dec (p + 4) a) as [Hhi | Hin];
    [apply byte_store32_out; lia |].
  replace a with (p + (a - p)) by lia.
  rewrite byte_store32_in by lia.
  unfold memory.load32.
  pose proof (byte_range m p). pose proof (byte_range m (p + 1)).
  pose proof (byte_range m (p + 2)). pose proof (byte_range m (p + 3)).
  change (2 ^ 8) with 256. change (2 ^ 16) with 65536.
  change (2 ^ 24) with 16777216.
  assert (Hc : a - p = 0 \/ a - p = 1 \/ a - p = 2 \/ a - p = 3) by lia.
  destruct Hc as [-> | [-> | [-> | ->]]].
  - change (2 ^ (8 * 0)) with 1. rewrite Z.add_0_r.
    Z.div_mod_to_equations. lia.
  - change (2 ^ (8 * 1)) with 256. Z.div_mod_to_equations. lia.
  - change (2 ^ (8 * 2)) with 65536. Z.div_mod_to_equations. lia.
  - change (2 ^ (8 * 3)) with 16777216. Z.div_mod_to_equations. lia.
Qed.

Lemma block_round_trip (bp : block_pool.t) (m : memory.t) :
  0 < block_pool.free_count bp <= block_pool.block_count bp ->
  block_pool.block_count bp < 4294967296 ->
  let p := fst (block_pool.alloc bp m) in
  let bp1 := snd (block_pool.alloc bp m) in
  p = block_pool.next_block bp /\
  block_pool.free_count bp1 = block_pool.free_count bp - 1 /\
  exists m',
    block_pool.dealloc bp1 m p = Done (bp, m') /\
    forall a, memory.byte m' a = memory.byte m a.
Proof.
  intros Hfc Hbc. unfold block_pool.alloc.
  destruct (block_pool.free_count bp <=? 0) eqn:E;
    [apply Z.leb_le in E; lia | clear E].
  cbn [fst snd]. split; [reflexivity |].
  rewrite (wrap_small (block_pool.free_count bp - 1)) by lia.
  split; [reflexivity |].
  exists (memory.store32 m (block_pool.next_block bp)
            (memory.load32 m (block_pool.next_block bp))).
  split; [| intros a; apply store32_load32_bytes].
  unfold block_pool.dealloc. cbn [block_pool.free_count block_pool.block_count
    block_pool.next_block block_pool.buffer block_pool.end_buffer].
  replace (block_pool.free_count bp - 1 <? block_pool.block_count bp) with true
    by (symmetry; apply Z.ltb_lt; lia).
  cbn [assertion obind].
  replace (block_pool.free_count bp - 1 + 1) with (block_pool.free_count bp)
    by lia.
  rewrite wrap_small by lia. destruct bp; reflexivity.
Qed.

(** X4: [alloc()] followed by [dealloc] of the block it returned puts a pool
    with a free block back exactly as it was (head, [free_count] and all
    other fields), and no byte of memory has changed its value. *)
Theorem alloc_dealloc_round_trip (bp : block_pool.t) (m : memory.t) :
  0 < block_pool.free_count bp <= block_pool.block_count bp ->
  block_pool.block_count bp < 4294967296 ->
  let p := fst (block_pool.alloc bp m) in
  let bp1 := snd (block_pool.alloc bp m) in
  p = block_pool.next_block bp /\
  block_pool.free_count bp1 = block_pool.free_count bp - 1 /\
  exists m',
    block_pool.dealloc bp1 m p = Done (bp, m') /\
    forall a, memory.byte m' a = memory.byte m a.
Proof. exact (block_round_trip bp m). Qed.

Lemma alloc_dealloc_round_trip_witness :
  exists m',
    block_pool.dealloc (snd (block_pool.alloc two_block_pool two_block_memory))
      two_block_memory (fst (block_pool.alloc two_block_pool two_block_memory))
    = Done (two_block_pool, m').
Proof.
  destruct (alloc_dealloc_round_trip two_block_pool two_block_memory)
    as (_ & _ & m' & Hd & _); [simpl; lia | simpl; lia |].
  exists m'. exact Hd.
Defined.

(** X5: the free list is last-in first-out.  After [dealloc(p)] on a pool
    that is not full, the next [alloc()] returns [p] and leaves the pool
    record exactly as it was before the [dealloc]; of the memory, only the
    four bytes of the link word at [p] may differ. *)
Theorem dealloc_alloc_lifo (bp : block_pool.t) (m : memory.t) (p : Z) :
  0 <= block_pool.free_count bp < block_pool.block_count bp ->
  block_pool.block_count bp < 4294967296 ->
  0 <= block_pool.next_block bp < 4294967296 ->
  exists bp1 m1,
    block_pool.dealloc bp m p = Done (bp1, m1) /\
    block_pool.free_count bp1 = block_pool.free_count bp + 1 /\
    block_pool.alloc bp1 m1 = (p, bp) /\
    forall a, a < p \/ p + 4 <= a -> memory.byte m1 a = memory.byte m a.
Proof.
  intros Hfc Hbc Hnb. unfold block_pool.dealloc.
  replace (block_pool.free_count bp <? block_pool.block_count bp) with true
    by (symmetry; apply Z.ltb_lt; lia).
  cbn [assertion obind]. rewrite wrap_small by lia.
  do 2 eexists. split; [reflexivity |].
  split; [reflexivity |].
  split; [| intros a Ha; apply byte_store32_out; assumption].
  unfold block_pool.alloc. cbn [block_pool.free_count block_pool.block_count
    block_pool.next_block block_pool.buffer block_pool.end_buffer].
  destruct (block_pool.free_count bp + 1 <=? 0) eqn:E;
    [apply Z.leb_le in E; lia | clear E].
  rewrite load32_store32_same by assumption.
  replace (block_pool.free_count bp + 1 - 1) with (block_pool.free_count bp)
    by lia.
  rewrite wrap_small by lia. destruct bp; reflexivity.
Qed.

Lemma dealloc_alloc_lifo_witness :
  exists bp1 m1,
    block_pool.dealloc (block_pool.mk 4 3 1004 1000 1016) zero_memory 1000
      = Done (bp1, m1) /\
    block_pool.alloc bp1 m1 = (1000, block_pool.mk 4 3 1004 1000 1016).
Proof.
  destruct (dealloc_alloc_lifo (block_pool.mk 4 3 1004 1000 1016)
              zero_memory 1000)
    as (bp1 & m1 & Hd & _ & Ha & _); try (simpl; lia).
  exists bp1, m1. split; assumption.
Defined.



(** ** The pool set: locality and round trip *)

(** X7: [pool_set::alloc] only ever touches the pool of the request's size
    class.  The number of pools and every other pool stay as they are; a
    size beyond the last class, or a class whose pool has no free block,
    yields null with the pool set unchanged (the request is never passed on
    to a larger class); and a non-null result is the head of the free list
    of the pool of that class. *)
Theorem alloc_touches_one_pool (ps : pool_set.t) (m : memory.t) (size : Z) :
  let idx := Z.to_nat (pool_set.pool_index size) in
  let p := fst (pool_set.alloc ps m size) in
  let ps' := snd (pool_set.alloc ps m size) in
  length (pool_set.pools ps') = length (pool_set.pools ps) /\
  (forall j, j <> idx -> pool_set.pools ps' !! j = pool_set.pools ps !! j) /\
  (pool_set.pool_count ps <= pool_set.pool_index size -> p = 0 /\ ps' = ps) /\
  (forall bp, pool_set.pools ps !! idx = Some bp ->
     block_pool.free_count bp <= 0 -> p = 0 /\ ps' = ps) /\
  (p <> 0 ->
   exists bp, pool_set.pools ps !! idx = Some bp /\
     pool_set.pool_index size < pool_set.pool_count ps /\
     p = block_pool.next_block bp /\ 0 < block_pool.free_count bp).
Proof.
  cbv zeta. unfold pool_set.alloc.
  destruct (pool_set.pool_index size <? pool_set.pool_count ps) eqn:Elt;
    [apply Z.ltb_lt in Elt | apply Z.ltb_ge in Elt].
  - destruct (pool_set.pools ps !! Z.to_nat (pool_set.pool_index size))
      as [bp |] eqn:Hbp.
    + unfold block_pool.alloc.
      destruct (block_pool.free_count bp <=? 0) eqn:Efc;
        [apply Z.leb_le in Efc | apply Z.leb_gt in Efc]; cbn [fst snd].
      * rewrite list_insert_id by assumption.
        destruct ps as [l]; cbn [pool_set.pools] in *.
        repeat split; try reflexivity; lia.
      * split; [apply length_insert |].
        split; [intros j Hj; apply list_lookup_insert_ne; congruence |].
        split; [lia |].
        split; [intros bp' Hbp' Hz; injection Hbp' as <-; lia |].
        intros _. exists bp. repeat split; assumption || lia.
    + cbn [fst snd].
      repeat split; try reflexivity; try lia; intros bp Hbp'; discriminate.
  - cbn [fst snd]. repeat split; try reflexivity; lia.
Qed.

Lemma pool_set_round_trip_lemma (ps : pool_set.t) (m : memory.t) (size : Z)
    (bp : block_pool.t) :
  pool_set.pools ps !! Z.to_nat (pool_set.pool_index size) = Some bp ->
  pool_set.pool_index size < pool_set.pool_count ps ->
  0 < block_pool.free_count bp <= block_pool.block_count bp ->
  block_pool.block_count bp < 4294967296 ->
  block_pool.in_range bp (block_pool.next_block bp) = true ->
  (forall j q, (j < Z.to_nat (pool_set.pool_index size))%nat ->
     pool_set.pools ps !! j = Some q ->
     block_pool.in_range q (block_pool.next_block bp) = false) ->
  exists ps1 m',
    pool_set.alloc ps m size = (block_pool.next_block bp, ps1) /\
    pool_set.dealloc ps1 m (block_pool.next_block bp) = Done (true, ps, m') /\
    forall a, memory.byte m' a = memory.byte m a.
Proof.
  intros Hbp Hlt Hfc Hbc Hown Hearlier.
  set (i := Z.to_nat (pool_set.pool_index size)) in *.
  destruct (block_round_trip bp m Hfc Hbc)
    as (Hp & _ & m' & Hback & Hbytes).
  set (bp1 := snd (block_pool.alloc bp m)) in *.
  rewrite Hp in Hback.
  exists (pool_set.mk (<[i := bp1]> (pool_set.pools ps))), m'.
  split; [| split; [| exact Hbytes]].
  - rewrite (alloc_routes ps m size bp Hlt Hbp). fold i. rewrite Hp. reflexivity.
  - assert (Hi : (i < length (pool_set.pools ps))%nat)
      by (eapply lookup_lt_Some; eassumption).
    unfold pool_set.dealloc. cbn [pool_set.pools].
    rewrite (insert_take_drop (pool_set.pools ps) i bp1 Hi).
    rewrite dealloc_from_first.
    + rewrite Hback. cbn [obind fst snd pool_set.pools Nat.add].
      rewrite length_take, Nat.min_l by lia.
      rewrite <- (insert_take_drop (pool_set.pools ps) i bp1 Hi).
      rewrite list_insert_insert_eq, list_insert_id by assumption.
      destruct ps; reflexivity.
    + apply Forall_forall. intros q Hq.
      apply list_elem_of_lookup in Hq as [j Hj].
      assert (Hjlt : (j < i)%nat).
      { apply lookup_lt_Some in Hj. rewrite length_take in Hj. lia. }
      rewrite lookup_take_lt in Hj by assumption.
      exact (Hearlier j q Hjlt Hj).
    + assert (Hsame : block_pool.in_range bp1 (block_pool.next_block bp)
                      = block_pool.in_range bp (block_pool.next_block bp)).
      { unfold bp1, block_pool.alloc.
        destruct (block_pool.free_count bp <=? 0); reflexivity. }
      rewrite Hsame. assumption.
Qed.

(** X8: size-classed round trip in the pool set.  If the pool of the
    request's class has a free block whose address lies in the pool's own
    range and in the range of no earlier pool, then [alloc] returns that
    block, [dealloc] of it reports success, and afterwards the pool set is
    exactly as before the [alloc], with every byte of memory at its old
    value. *)
Theorem pool_set_round_trip (ps : pool_set.t) (m : memory.t) (size : Z)
    (bp : block_pool.t) :
  pool_set.pools ps !! Z.to_nat (pool_set.pool_index size) = Some bp ->
  pool_set.pool_index size < pool_set.pool_count ps ->
  0 < block_pool.free_count bp <= block_pool.block_count bp ->
  block_pool.block_count bp < 4294967296 ->
  block_pool.in_range bp (block_pool.next_block bp) = true ->
  (forall j q, (j < Z.to_nat (pool_set.pool_index size))%nat ->
     pool_set.pools ps !! j = Some q ->
     block_pool.in_range q (block_pool.next_block bp) = false) ->
  exists ps1 m',
    pool_set.alloc ps m size = (block_pool.next_block bp, ps1) /\
    pool_set.dealloc ps1 m (block_pool.next_block bp) = Done (true, ps, m') /\
    forall a, memory.byte m' a = memory.byte m a.
Proof.
  apply pool_set_round_trip_lemma.
Qed.

Lemma pool_set_round_trip_witness :
  exists ps1 m',
    pool_set.alloc (pool_set.mk [two_block_pool]) two_block_memory 3
      = (16, ps1) /\
    pool_set.dealloc ps1 two_block_memory 16
      = Done (true, pool_set.mk [two_block_pool], m').
Proof.
  destruct (pool_set_round_trip (pool_set.mk [two_block_pool])
              two_block_memory 3 two_block_pool)
    as (ps1 & m' & Ha & Hd & _).
  - reflexivity.
  - vm_compute. reflexivity.
  - simpl. lia.
  - simpl. lia.
  - reflexivity.
  - intros j q Hj. change (Z.to_nat (pool_set.pool_index 3)) with 0%nat in Hj.
    lia.
  - exists ps1, m'. split; assumption.
Defined.

(** ** The arena allocator: reservations, the cursor, round trip *)

Lemma align4_total_range bytes : 0 <= word.align4 bytes < 4294967296.
Proof.
  split; [apply align4_nonneg |].
  unfold word.align4.
  pose proof (wrap_range (bytes + 3)) as Hw.
  pose proof (land_le (word.wrap (bytes + 3)) (word.wrap (Z.lnot 3))
                ltac:(lia)).
  lia.
Qed.



(** X10: when the arena lies so high that [next + size] passes the top of
    the 32-bit address space, the bounds test of the reservation loop is
    defeated: the wrapped sum is small, the test [next_next > frag_buffer +
    PoolSize] fails, and [alloc] hands out a range that runs over the top of
    the address space while the cursor jumps back to a low address. *)
Theorem arena_direct_alloc_wraps (PoolSize : Z) (fuel : nat) (heap_ptr : Z)
    (st : fixed_pool.globals) (bytes : Z) :
  0 < fixed_pool.next st < 4294967296 ->
  0 <= fixed_pool.frag_buffer st + PoolSize < 4294967296 ->
  word.align4 bytes <= PoolSize ->
  4294967296 <= fixed_pool.next st + word.align4 bytes ->
  fixed_pool.next st + word.align4 bytes - 4294967296
    <= fixed_pool.frag_buffer st + PoolSize ->
  exists trace,
    fixed_pool.alloc PoolSize (S fuel) heap_ptr st bytes pool_type.fixed =
      Some (fixed_pool.next st,
            fixed_pool.set_next st
              (fixed_pool.next st + word.align4 bytes - 4294967296),
            trace) /\
    Forall (fun e => is_malloc e = false) trace /\
    fixed_pool.next st + word.align4 bytes - 4294967296 < fixed_pool.next st.
Proof.
  intros Hnext Hend Hsize Hover Hpass.
  destruct (align4_total_range bytes) as [Hab0 Hab1].
  assert (Hw : word.wrap (fixed_pool.next st + word.align4 bytes)
               = fixed_pool.next st + word.align4 bytes - 4294967296).
  { unfold word.wrap. rewrite modulus_eq.
    symmetry. apply Z.mod_unique with (q := 1); lia. }
  assert (Htier :
    (if pool_type.eqb pool_type.logarithmic pool_type.fixed then
       let '(p, ps) :=
         pool_set.alloc (fixed_pool.the_pool_set st) (fixed_pool.mem st)
           (word.align4 bytes) in
       Some (p, fixed_pool.set_pools st ps (fixed_pool.mem st))
     else if pool_type.eqb pool_type.fixed pool_type.fixed
             && (word.align4 bytes <=? PoolSize)
     then fixed_pool.bump PoolSize (S fuel) st (word.align4 bytes)
     else Some (0, st))
    = Some (fixed_pool.next st,
            fixed_pool.set_next st
              (fixed_pool.next st + word.align4 bytes - 4294967296))).
  { cbn [pool_type.eqb andb]. apply Z.leb_le in Hsize. rewrite Hsize.
    rewrite bump_once by lia. rewrite Hw.
    rewrite (wrap_small (fixed_pool.frag_buffer st + PoolSize)) by lia.
    destruct (_ >? _) eqn:E; [apply Z.gtb_lt in E; lia | reflexivity]. }
  rewrite (alloc_shape PoolSize (S fuel) heap_ptr st bytes pool_type.fixed
             _ _ Htier).
  cbv zeta. cbn [pool_type.eqb orb].
  replace (fixed_pool.next st =? 0) with false
    by (symmetry; apply Z.eqb_neq; lia).
  cbn [app]. eexists. split; [reflexivity |].
  split; [| lia].
  destruct (fixed_pool.debug _); repeat constructor.
Qed.

Lemma arena_direct_alloc_wraps_witness :
  exists trace,
    fixed_pool.alloc 200 1 7777
      (fixed_pool.mk zero_memory 4294967000 4294967200 false false
         (pool_set.mk [])) 100 pool_type.fixed
    = Some (4294967200,
            fixed_pool.mk zero_memory 4294967000 4 false false (pool_set.mk []),
            trace).
Proof.
  destruct (arena_direct_alloc_wraps 200 0 7777
              (fixed_pool.mk zero_memory 4294967000 4294967200 false false
                 (pool_set.mk [])) 100)
    as (trace & Ha & _);
    try (change (word.align4 100) with 100; simpl; lia).
  exists trace. exact Ha.
Defined.

(** X11: with a null cursor, an arena-direct request whose rounded size is 0
    never returns.  Each iteration reserves the empty range at address 0, the
    compare-and-swap succeeds, [p] is the null cursor, and the loop condition
    [0 == p] holds again: no number of iterations leaves the loop. *)
Theorem null_cursor_never_returns (PoolSize : Z) (heap_ptr : Z)
    (st : fixed_pool.globals) (bytes : Z) (fuel : nat) :
  fixed_pool.next st = 0 -> word.align4 bytes = 0 -> 0 <= PoolSize ->
  fixed_pool.alloc PoolSize fuel heap_ptr st bytes pool_type.fixed = None.
Proof.
  intros Hnext Hab Hsize.
  assert (Hbump : fixed_pool.bump PoolSize fuel st 0 = None).
  { clear Hab. revert st Hnext. induction fuel as [| fuel IH]; intros st Hnext;
      [reflexivity |].
    cbn [fixed_pool.bump]. cbv zeta. rewrite Hnext.
    change (word.wrap (0 + 0)) with 0.
    pose proof (wrap_range (fixed_pool.frag_buffer st + PoolSize)) as Hw.
    destruct (0 >? word.wrap (fixed_pool.frag_buffer st + PoolSize)) eqn:E;
      [apply Z.gtb_lt in E; lia |].
    unfold fixed_pool.cas. rewrite Hnext. cbn [Z.eqb].
    apply IH. reflexivity. }
  unfold fixed_pool.alloc. cbv zeta. cbn [pool_type.eqb andb].
  rewrite Hab. replace (0 <=? PoolSize) with true
    by (symmetry; apply Z.leb_le; assumption).
  rewrite Hbump. reflexivity.
Qed.

Lemma null_cursor_never_returns_witness :
  fixed_pool.alloc 16 1000 7777
    (fixed_pool.mk zero_memory 0 0 false true (pool_set.mk [])) 0
    pool_type.fixed = None.
Proof.
  apply null_cursor_never_returns; [reflexivity | reflexivity | lia].
Defined.

(** X12: in an arena that is placed with room below the top of the
    address space ([frag_buffer + 2 * PoolSize < 2^32]) and whose cursor is
    non-null and inside it ([0 < frag_buffer <= next <= frag_buffer +
    PoolSize]), the cursor never moves back and never leaves the arena.
    Under these conditions every call of [alloc] returns, leaves the cursor
    between its old value and the end of the arena, and moves it only for
    an arena-direct request; [dealloc] and [release] never move it, so
    memory reserved directly in the arena is never given back.  (Outside
    these conditions the cursor can wrap to a lower address or the call
    need not return.) *)
Theorem cursor_never_rewinds (PoolSize : Z) (fuel : nat) (heap_ptr : Z)
    (st : fixed_pool.globals) (bytes : Z) (type : pool_type.en) (p : Z) :
  0 < fixed_pool.frag_buffer st <= fixed_pool.next st ->
  fixed_pool.next st <= fixed_pool.frag_buffer st + PoolSize ->
  fixed_pool.frag_buffer st + 2 * PoolSize < 4294967296 ->
  (exists q st' evs,
     fixed_pool.alloc PoolSize (S fuel) heap_ptr st bytes type
       = Some (q, st', evs) /\
     fixed_pool.next st <= fixed_pool.next st'
       <= fixed_pool.frag_buffer st + PoolSize /\
     fixed_pool.frag_buffer st' = fixed_pool.frag_buffer st /\
     fixed_pool.released st' = fixed_pool.released st /\
     (type <> pool_type.fixed -> fixed_pool.next st' = fixed_pool.next st)) /\
  (forall st' evs,
     fixed_pool.dealloc PoolSize st p = Done (st', evs) ->
     fixed_pool.next st' = fixed_pool.next st /\
     fixed_pool.frag_buffer st' = fixed_pool.frag_buffer st /\
     fixed_pool.released st' = fixed_pool.released st) /\
  fixed_pool.next (fst (fixed_pool.release st)) = fixed_pool.next st.
Proof.
  intros Hcur Hin Htop.
  split; [| split; [| reflexivity]].
  - assert (Htier : exists q st',
      (if pool_type.eqb pool_type.logarithmic type then
         let '(p, ps) :=
           pool_set.alloc (fixed_pool.the_pool_set st) (fixed_pool.mem st)
             (word.align4 bytes) in
         Some (p, fixed_pool.set_pools st ps (fixed_pool.mem st))
       else if pool_type.eqb pool_type.fixed type
               && (word.align4 bytes <=? PoolSize)
       then fixed_pool.bump PoolSize (S fuel) st (word.align4 bytes)
       else Some (0, st)) = Some (q, st') /\
      fixed_pool.next st <= fixed_pool.next st'
        <= fixed_pool.frag_buffer st + PoolSize /\
      fixed_pool.frag_buffer st' = fixed_pool.frag_buffer st /\
      fixed_pool.released st' = fixed_pool.released st /\
      (type <> pool_type.fixed -> fixed_pool.next st' = fixed_pool.next st)).
    { destruct type; cbn [pool_type.eqb andb].
      - destruct (pool_set.alloc _ _ _) as [q ps].
        exists q, (fixed_pool.set_pools st ps (fixed_pool.mem st)).
        cbn [fixed_pool.set_pools fixed_pool.next fixed_pool.frag_buffer
             fixed_pool.released]. repeat split; lia.
      - pose proof (align4_nonneg bytes) as Hab.
        destruct (word.align4 bytes <=? PoolSize) eqn:Esz;
          [apply Z.leb_le in Esz |].
        + rewrite bump_once by lia.
          rewrite (wrap_small (fixed_pool.next st + word.align4 bytes)) by lia.
          rewrite (wrap_small (fixed_pool.frag_buffer st + PoolSize)) by lia.
          destruct (_ >? _) eqn:E.
          * exists 0, st. repeat split; lia || (intros H; contradiction).
          * rewrite Z.gtb_ltb in E. apply Z.ltb_ge in E.
            eexists _, _. split; [reflexivity |].
            cbn [fixed_pool.set_next fixed_pool.next fixed_pool.frag_buffer
                 fixed_pool.released].
            repeat split; lia || (intros H; contradiction).
        + exists 0, st. repeat split; lia || (intros H; contradiction).
      - exists 0, st. repeat split; lia. }
    destruct Htier as (q & st' & Htier & Hfacts).
    rewrite (alloc_shape PoolSize (S fuel) heap_ptr st bytes type q st' Htier).
    cbv zeta. eexists _, st', _. split; [reflexivity | exact Hfacts].
  - intros st' evs. unfold fixed_pool.dealloc.
    destruct ((fixed_pool.frag_buffer st <=? p) && _).
    + destruct (fixed_pool.released st) eqn:Er; cbn [negb].
      * intros H. injection H as <- <-. repeat split; assumption.
      * destruct (pool_set.dealloc _ _ _) as [[[claimed ps] m] |];
          cbn [obind]; [| discriminate].
        destruct claimed; intros H; injection H as <- <-;
          repeat split; assumption.
    + intros H. injection H as <- <-. repeat split.
Qed.

Lemma cursor_never_rewinds_witness :
  fixed_pool.next (fst (fixed_pool.release small_arena))
    = fixed_pool.next small_arena /\
  exists q st' evs,
    fixed_pool.alloc 1024 1 7777 small_arena 10 pool_type.fixed
      = Some (q, st', evs) /\
    fixed_pool.next small_arena <= fixed_pool.next st'.
Proof.
  destruct (cursor_never_rewinds 1024 0 7777 small_arena 10 pool_type.fixed 0)
    as ((q & st' & evs & Ha & Hm & _) & _ & Hr); try (simpl; lia).
  split; [exact Hr |]. exists q, st', evs. split; [exact Ha | lia].
Defined.




(** ** Any contract-respecting use of one pool *)

Lemma existsb_eqb_In p l : existsb (Z.eqb p) l = true -> In p l.
Proof.
  intros H. apply existsb_exists in H as (x & Hx & Heq).
  apply Z.eqb_eq in Heq. subst x. exact Hx.
Qed.

Lemma remove_first_perm p l : In p l -> Permutation l (p :: remove_first p l).
Proof.
  induction l as [| a l IH]; intros Hin; [contradiction |].
  cbn [remove_first]. destruct (a =? p) eqn:E.
  - apply Z.eqb_eq in E. subst a. reflexivity.
  - apply Z.eqb_neq in E. destruct Hin as [-> | Hin]; [contradiction |].
    etransitivity; [apply perm_skip, IH, Hin | apply perm_swap].
Qed.

Lemma spaced_cons_app p l1 l2 :
  spaced (p :: l1 ++ l2) -> spaced (p :: l2).
Proof.
  cbn [spaced]. intros (Hp & Hf & Hs).
  apply Forall_app in Hf as [_ Hf].
  split; [assumption |]. split; [assumption |].
  eapply spaced_app_r; eassumption.
Qed.

Lemma client_conserves calls : forall bp m held l,
  pool_free_list bp m l ->
  spaced (held ++ l) ->
  block_pool.free_count bp + Z.of_nat (length held)
    <= block_pool.block_count bp ->
  client calls bp m held <> pool_aborted /\
  forall bp' m' held',
    client calls bp m held = calls_done bp' m' held' ->
    exists l',
      pool_free_list bp' m' l' /\
      Permutation (held' ++ l') (held ++ l) /\
      block_pool.block_count bp' = block_pool.block_count bp.
Proof.
  induction calls as [| c calls IH]; intros bp m held l Hfl Hsp Hcnt.
  - cbn [client]. split; [discriminate |].
    intros bp' m' held' H. injection H as <- <- <-.
    exists l. split; [assumption | split; reflexivity].
  - destruct c as [| p | p v]; cbn [client].
    + (* alloc *)
      destruct l as [| a l].
      * rewrite (alloc_empty bp m Hfl). cbn [Z.eqb].
        apply IH; assumption.
      * destruct (alloc_pop bp m a l Hfl)
          as (bp1 & Ha & Hfl1 & Hc1 & Hb1 & _).
        rewrite Ha.
        assert (Hsp1 : spaced ((a :: held) ++ l)).
        { eapply spaced_perm; [| exact Hsp].
          symmetry. apply Permutation_middle. }
        assert (Ha0 : (a =? 0) = false).
        { apply Z.eqb_neq. cbn [app spaced] in Hsp1. lia. }
        rewrite Ha0.
        destruct (IH bp1 m (a :: held) l Hfl1 Hsp1) as [Hna Hdone].
        { cbn [length]. lia. }
        split; [assumption |].
        intros bp' m' held' Hrun.
        destruct (Hdone bp' m' held' Hrun) as (l' & Hfl' & Hperm & Hbc).
        exists l'. split; [assumption |]. split; [| congruence].
        etransitivity; [exact Hperm |].
        apply Permutation_middle.
    + (* dealloc *)
      destruct (existsb (Z.eqb p) held) eqn:Eheld;
        [| split; [discriminate | intros ? ? ? H; discriminate]].
      apply existsb_eqb_In in Eheld.
      pose proof (remove_first_perm p held Eheld) as Hperm_held.
      assert (Hlen : length held = S (length (remove_first p held)))
        by (rewrite (Permutation_length Hperm_held); reflexivity).
      assert (Hsp1 : spaced (p :: remove_first p held ++ l)).
      { eapply spaced_perm; [| exact Hsp].
        change (p :: remove_first p held ++ l)
          with ((p :: remove_first p held) ++ l).
        apply Permutation_app_tail. assumption. }
      destruct (dealloc_push bp m l p Hfl)
        as (bp1 & m1 & Hd & Hfl1 & Hc1 & Hb1 & _);
        [lia | eapply spaced_cons_app; exact Hsp1 |].
      rewrite Hd.
      assert (Hsp2 : spaced (remove_first p held ++ p :: l)).
      { eapply spaced_perm; [| exact Hsp1]. apply Permutation_middle. }
      destruct (IH bp1 m1 (remove_first p held) (p :: l) Hfl1 Hsp2)
        as [Hna Hdone]; [lia |].
      split; [assumption |].
      intros bp' m' held' Hrun.
      destruct (Hdone bp' m' held' Hrun) as (l' & Hfl' & Hperm & Hbc).
      exists l'. split; [assumption |]. split; [| congruence].
      etransitivity; [exact Hperm |].
      etransitivity; [symmetry; apply Permutation_middle |].
      change (p :: remove_first p held ++ l)
        with ((p :: remove_first p held) ++ l).
      apply Permutation_app_tail. symmetry. assumption.
    + (* the client writes into a block it holds *)
      destruct (existsb (Z.eqb p) held) eqn:Eheld;
        [| split; [discriminate | intros ? ? ? H; discriminate]].
      apply existsb_eqb_In in Eheld.
      pose proof (remove_first_perm p held Eheld) as Hperm_held.
      assert (Hsp1 : spaced (p :: remove_first p held ++ l)).
      { eapply spaced_perm; [| exact Hsp].
        change (p :: remove_first p held ++ l)
          with ((p :: remove_first p held) ++ l).
        apply Permutation_app_tail. assumption. }
      apply spaced_cons_app in Hsp1. cbn [spaced] in Hsp1.
      destruct Hsp1 as (_ & Hapart & _).
      apply IH; try assumption.
      destruct Hfl as (Hc & Hrest).
      split; [apply free_chain_store; assumption | exact Hrest].
Qed.

(** X14: whatever a client does within the contract, the pool stays sound.
    Start from a pool whose free list is intact, with [free_count] plus the
    number of blocks the client holds within [block_count].  Let the client
    make any sequence of [alloc()] calls, [dealloc] calls on blocks it holds
    and writes to the first word of blocks it holds.  Then the assertion of
    [dealloc] never fails; afterwards the free list is intact again, the
    blocks held and the free blocks together are the same blocks as at the
    start, and no block is held twice or both held and free. *)
Theorem pool_conservation (calls : list pool_call) (bp : block_pool.t)
    (m : memory.t) (held l : list Z) :
  pool_free_list bp m l ->
  spaced (held ++ l) ->
  block_pool.free_count bp + Z.of_nat (length held)
    <= block_pool.block_count bp ->
  client calls bp m held <> pool_aborted /\
  forall bp' m' held',
    client calls bp m held = calls_done bp' m' held' ->
    exists l',
      pool_free_list bp' m' l' /\
      Permutation (held' ++ l') (held ++ l) /\
      NoDup (held' ++ l') /\
      block_pool.free_count bp' + Z.of_nat (length held')
        = block_pool.free_count bp + Z.of_nat (length held).
Proof.
  intros Hfl Hsp Hcnt.
  destruct (client_conserves calls bp m held l Hfl Hsp Hcnt) as [Hna Hdone].
  split; [assumption |].
  intros bp' m' held' Hrun.
  destruct (Hdone bp' m' held' Hrun) as (l' & Hfl' & Hperm & _).
  exists l'. split; [assumption |]. split; [assumption |].
  split.
  - apply spaced_NoDup. eapply spaced_perm; [symmetry; exact Hperm | exact Hsp].
  - pose proof (Permutation_length Hperm) as Hlen.
    rewrite !length_app in Hlen.
    destruct Hfl as (_ & Hl & _). destruct Hfl' as (_ & Hl' & _). lia.
Qed.

Lemma pool_conservation_witness :
  client [call_alloc; call_alloc; call_store 16 99; call_dealloc 16;
          call_alloc; call_alloc]
    two_block_pool two_block_memory [] <> pool_aborted /\
  exists bp' m',
    client [call_alloc; call_alloc; call_store 16 99; call_dealloc 16;
            call_alloc; call_alloc]
      two_block_pool two_block_memory []
    = calls_done bp' m' [16; 20].
Proof.
  destruct (pool_conservation
              [call_alloc; call_alloc; call_store 16 99; call_dealloc 16;
               call_alloc; call_alloc]
              two_block_pool two_block_memory [] [16; 20]
              two_block_free_list) as [Hna _].
  - apply two_block_free_list.
  - simpl. lia.
  - split; [exact Hna |]. eexists _, _. reflexivity.
Defined.

(** ** [bits_set] counts the set bits *)

Lemma land_digit d c a b :
  0 <= d < 16 -> 0 <= c < 16 ->
  Z.land (d + 16 * a) (c + 16 * b) = Z.land d c + 16 * Z.land a b.
Proof.
  intros Hd Hc.
  assert (Hlow : forall u v w, 0 <= u < 16 -> w = u + 16 * v ->
            w mod 16 = u /\ w / 16 = v).
  { intros u v w Hu ->. split; Z.div_mod_to_equations; lia. }
  destruct (Hlow d a _ Hd eq_refl) as [Hdm Hdd].
  destruct (Hlow c b _ Hc eq_refl) as [Hcm Hcd].
  set (x := d + 16 * a) in *. set (y := c + 16 * b) in *.
  rewrite (Z.div_mod (Z.land x y) 16) at 1 by lia.
  assert (Hq : Z.land x y / 16 = Z.land a b).
  { change 16 with (2 ^ 4). rewrite <- Z.shiftr_div_pow2 by lia.
    rewrite Z.shiftr_land, !Z.shiftr_div_pow2 by lia.
    change (2 ^ 4) with 16. rewrite Hdd, Hcd. reflexivity. }
  assert (Hr : Z.land x y mod 16 = Z.land d c).
  { change 16 with (2 ^ 4). rewrite <- !Z.land_ones by lia.
    rewrite <- Hdm, <- Hcm. change 16 with (2 ^ 4).
    rewrite <- !Z.land_ones by lia.
    apply Z.bits_inj'. intros i Hi. rewrite !Z.land_spec.
    destruct (Z.testbit x i), (Z.testbit y i), (Z.testbit (Z.ones 4) i);
      reflexivity. }
  rewrite Hq, Hr. lia.
Qed.

Lemma digit_cases d :
  0 <= d < 16 ->
  d = 0 \/ d = 1 \/ d = 2 \/ d = 3 \/ d = 4 \/ d = 5 \/ d = 6 \/ d = 7 \/
  d = 8 \/ d = 9 \/ d = 10 \/ d = 11 \/ d = 12 \/ d = 13 \/ d = 14 \/ d = 15.
Proof. lia. Qed.

(** One hexadecimal digit through the first two lines. *)
Lemma digit_popcount d :
  0 <= d < 16 ->
  nibble_sums 3 (pair_sums 5 d) = popcount 4 d /\
  0 <= pair_sums 5 d < 16.
Proof.
  intros Hd. pose proof (digit_cases d Hd) as Hc.
  repeat (destruct Hc as [-> | Hc];
          [vm_compute; repeat split; reflexivity || discriminate |]).
  subst d. vm_compute. repeat split; reflexivity || discriminate.
Qed.

Lemma popcount4_range d : 0 <= d < 16 -> 0 <= popcount 4 d <= 4.
Proof.
  intros Hd. pose proof (digit_cases d Hd) as Hc.
  repeat (destruct Hc as [-> | Hc]; [vm_compute; split; discriminate |]).
  subst d. vm_compute. split; discriminate.
Qed.

(** The bit that [x >> 1] carries in from the next digit falls on a zero of
    the mask; so do the two bits that [x >> 2] carries in. *)
Lemma land_5_low e c : 0 <= e < 8 -> 0 <= c < 2 -> Z.land (e + 8 * c) 5 = Z.land e 5.
Proof.
  intros He Hc.
  assert (Hce : c = 0 \/ c = 1) by lia.
  assert (Hee : e = 0 \/ e = 1 \/ e = 2 \/ e = 3 \/ e = 4 \/ e = 5 \/ e = 6
                \/ e = 7) by lia.
  destruct Hce as [-> | ->];
    repeat (destruct Hee as [-> | Hee]; [reflexivity |]); subst e; reflexivity.
Qed.

Lemma land_3_low e c : 0 <= e < 4 -> 0 <= c < 4 -> Z.land (e + 4 * c) 3 = Z.land e 3.
Proof.
  intros He Hc.
  assert (Hce : c = 0 \/ c = 1 \/ c = 2 \/ c = 3) by lia.
  assert (Hee : e = 0 \/ e = 1 \/ e = 2 \/ e = 3) by lia.
  destruct Hce as [-> | [-> | [-> | ->]]];
    destruct Hee as [-> | [-> | [-> | ->]]]; reflexivity.
Qed.

Lemma pair_sums_digit mask d hi :
  0 <= d < 16 ->
  pair_sums (5 + 16 * mask) (d + 16 * hi)
  = pair_sums 5 d + 16 * pair_sums mask hi.
Proof.
  intros Hd. unfold pair_sums. rewrite !Z.shiftr_div_pow2 by lia.
  change (2 ^ 1) with 2.
  replace ((d + 16 * hi) / 2) with ((d / 2 + 8 * (hi mod 2)) + 16 * (hi / 2))
    by (Z.div_mod_to_equations; lia).
  rewrite land_digit by (Z.div_mod_to_equations; lia).
  rewrite land_5_low by (Z.div_mod_to_equations; lia).
  lia.
Qed.

Lemma nibble_sums_digit mask d hi :
  0 <= d < 16 ->
  nibble_sums (3 + 16 * mask) (d + 16 * hi)
  = nibble_sums 3 d + 16 * nibble_sums mask hi.
Proof.
  intros Hd. unfold nibble_sums. rewrite !Z.shiftr_div_pow2 by lia.
  change (2 ^ 2) with 4.
  replace ((d + 16 * hi) / 4) with ((d / 4 + 4 * (hi mod 4)) + 16 * (hi / 4))
    by (Z.div_mod_to_equations; lia).
  rewrite !land_digit by (Z.div_mod_to_equations; lia).
  rewrite land_3_low by (Z.div_mod_to_equations; lia).
  lia.
Qed.


Lemma nibble_sums_counts n : forall x,
  nibble_sums (threes n) (pair_sums (fives n) x) = digit_counts n x.
Proof.
  induction n as [| n IH]; intros x.
  - cbn [threes fives digit_counts]. unfold nibble_sums, pair_sums.
    rewrite !Z.land_0_r. reflexivity.
  - cbn [threes fives digit_counts].
    assert (Hd : 0 <= x mod 16 < 16) by (apply Z.mod_pos_bound; lia).
    rewrite (Z.div_mod x 16) at 1 by lia.
    rewrite (Z.add_comm (16 * (x / 16))).
    rewrite pair_sums_digit by assumption.
    destruct (digit_popcount (x mod 16) Hd) as [Hpc Hrange].
    rewrite nibble_sums_digit by assumption.
    rewrite Hpc, IH. reflexivity.
Qed.

Lemma popcount_nibble n x :
  popcount (4 + n) x = popcount 4 (x mod 16) + popcount n (x / 16).
Proof.
  cbn [popcount Nat.add].
  replace (x / 2 / 2 / 2 / 2) with (x / 16) by (Z.div_mod_to_equations; lia).
  generalize (popcount n (x / 16)). intros rest.
  Z.div_mod_to_equations. lia.
Qed.

Lemma land_15 d : 0 <= d < 16 -> Z.land d 15 = d.
Proof.
  intros Hd. change 15 with (Z.ones 4). rewrite Z.land_ones by lia.
  apply Z.mod_small. change (2 ^ 4) with 16. lia.
Qed.

(** The last lines of [bits_set] add up eight digit counts. *)
Lemma add_up_digits c0 c1 c2 c3 c4 c5 c6 c7 :
  0 <= c0 <= 4 -> 0 <= c1 <= 4 -> 0 <= c2 <= 4 -> 0 <= c3 <= 4 ->
  0 <= c4 <= 4 -> 0 <= c5 <= 4 -> 0 <= c6 <= 4 -> 0 <= c7 <= 4 ->
  add_up (c0 + 16 * (c1 + 16 * (c2 + 16 * (c3 + 16 * (c4 + 16 * (c5 + 16 *
            (c6 + 16 * c7)))))))
  = c0 + c1 + c2 + c3 + c4 + c5 + c6 + c7.
Proof.
  intros H0 H1 H2 H3 H4 H5 H6 H7. unfold add_up.
  set (y := c0 + 16 * (c1 + 16 * (c2 + 16 * (c3 + 16 * (c4 + 16 * (c5 + 16 *
            (c6 + 16 * c7))))))).
  assert (Hsh : Z.shiftr y 4 + y =
    (c0 + c1) + 16 * ((c1 + c2) + 16 * ((c2 + c3) + 16 * ((c3 + c4) + 16 *
      ((c4 + c5) + 16 * ((c5 + c6) + 16 * ((c6 + c7) + 16 * c7))))))).
  { rewrite Z.shiftr_div_pow2 by lia. change (2 ^ 4) with 16.
    unfold y. Z.div_mod_to_equations. lia. }
  rewrite Hsh. clear Hsh.
  match goal with
  | |- context [word.wrap (c0 + c1 + ?r)] =>
      rewrite (wrap_small (c0 + c1 + r)) by lia
  end.
  change 0x0f0f0f0f with
    (15 + 16 * (0 + 16 * (15 + 16 * (0 + 16 * (15 + 16 * (0 + 16 *
       (15 + 16 * 0))))))).
  rewrite !land_digit by lia.
  rewrite !land_15 by lia. rewrite !Z.land_0_r.
  set (z := c0 + c1 + 16 * (0 + 16 * (c2 + c3 + 16 * (0 + 16 * (c4 + c5 + 16 *
              (0 + 16 * (c6 + c7 + 16 * 0))))))).
  assert (Hz8 : Z.shiftr z 8 = (c2 + c3) + 256 * (c4 + c5) + 65536 * (c6 + c7)).
  { rewrite Z.shiftr_div_pow2 by lia. change (2 ^ 8) with 256.
    unfold z. Z.div_mod_to_equations. lia. }
  rewrite Hz8. rewrite (wrap_small (z + _)) by (unfold z; lia).
  set (u := z + (c2 + c3 + 256 * (c4 + c5) + 65536 * (c6 + c7))).
  assert (Hu16 : Z.shiftr u 16 = (c4 + c5 + c6 + c7) + 256 * (c6 + c7)).
  { rewrite Z.shiftr_div_pow2 by lia. change (2 ^ 16) with 65536.
    unfold u, z. Z.div_mod_to_equations. lia. }
  rewrite Hu16. rewrite (wrap_small (u + _)) by (unfold u, z; lia).
  change 0x3f with (Z.ones 6). rewrite Z.land_ones by lia.
  change (2 ^ 6) with 64. unfold u, z. Z.div_mod_to_equations. lia.
Qed.

Lemma bits_set_unfold x :
  pool_set.bits_set x =
    add_up
      (word.wrap
         (nibble_sums 0x33333333
            (word.wrap (pair_sums 0x55555555 x)))).
Proof. reflexivity. Qed.

Lemma bits_set_is_popcount x :
  0 <= x < 4294967296 -> pool_set.bits_set x = popcount 32 x.
Proof.
  intros Hx. rewrite bits_set_unfold.
  assert (Hp : 0 <= pair_sums 0x55555555 x <= x).
  { unfold pair_sums. rewrite Z.shiftr_div_pow2 by lia. change (2 ^ 1) with 2.
    assert (0 <= x / 2 <= x) by (Z.div_mod_to_equations; lia).
    assert (0 <= Z.land (x / 2) 0x55555555) by (apply Z.land_nonneg; lia).
    pose proof (land_le (x / 2) 0x55555555 ltac:(lia)). lia. }
  rewrite (wrap_small (pair_sums _ _)) by lia.
  change 0x33333333 with (threes 8). change 0x55555555 with (fives 8).
  rewrite nibble_sums_counts.
  pose proof (fun d H => popcount4_range d H) as Hr.
  assert (Hm : forall v, 0 <= v mod 16 < 16)
    by (intros v; apply Z.mod_pos_bound; lia).
  change 32%nat with (4 + (4 + (4 + (4 + (4 + (4 + (4 + (4 + 0))))))))%nat.
  rewrite !popcount_nibble. cbn [digit_counts].
  change (popcount 0 (x / 16 / 16 / 16 / 16 / 16 / 16 / 16 / 16)) with 0.
  set (c0 := popcount 4 (x mod 16)).
  set (c1 := popcount 4 (x / 16 mod 16)).
  set (c2 := popcount 4 (x / 16 / 16 mod 16)).
  set (c3 := popcount 4 (x / 16 / 16 / 16 mod 16)).
  set (c4 := popcount 4 (x / 16 / 16 / 16 / 16 mod 16)).
  set (c5 := popcount 4 (x / 16 / 16 / 16 / 16 / 16 mod 16)).
  set (c6 := popcount 4 (x / 16 / 16 / 16 / 16 / 16 / 16 mod 16)).
  set (c7 := popcount 4 (x / 16 / 16 / 16 / 16 / 16 / 16 / 16 mod 16)).
  assert (H0 : 0 <= c0 <= 4) by apply Hr, Hm.
  assert (H1 : 0 <= c1 <= 4) by apply Hr, Hm.
  assert (H2 : 0 <= c2 <= 4) by apply Hr, Hm.
  assert (H3 : 0 <= c3 <= 4) by apply Hr, Hm.
  assert (H4 : 0 <= c4 <= 4) by apply Hr, Hm.
  assert (H5 : 0 <= c5 <= 4) by apply Hr, Hm.
  assert (H6 : 0 <= c6 <= 4) by apply Hr, Hm.
  assert (H7 : 0 <= c7 <= 4) by apply Hr, Hm.
  rewrite wrap_small by lia.
  replace (c0 + 16 * (c1 + 16 * (c2 + 16 * (c3 + 16 * (c4 + 16 * (c5 + 16 *
             (c6 + 16 * (c7 + 16 * 0))))))))
    with (c0 + 16 * (c1 + 16 * (c2 + 16 * (c3 + 16 * (c4 + 16 * (c5 + 16 *
             (c6 + 16 * c7))))))) by lia.
  rewrite add_up_digits by assumption. lia.
Qed.

Lemma count_set_bits_shift n x :
  count_set_bits (S n) x = Z.b2z (Z.testbit x 0) + count_set_bits n (x / 2).
Proof.
  induction n as [| n IH].
  { cbn [count_set_bits]. change (Z.of_nat 0) with 0. ring. }
  change (count_set_bits (S (S n)) x)
    with (count_set_bits (S n) x + Z.b2z (Z.testbit x (Z.of_nat (S n)))).
  rewrite IH. cbn [count_set_bits].
  replace (x / 2) with (Z.shiftr x 1)
    by (rewrite Z.shiftr_div_pow2 by lia; reflexivity).
  rewrite Z.shiftr_spec by lia.
  rewrite Nat2Z.inj_succ, <- Z.add_1_r. ring.
Qed.

Lemma popcount_count_set_bits n : forall x,
  popcount n x = count_set_bits n x.
Proof.
  induction n as [| n IH]; intros x; [reflexivity |].
  rewrite count_set_bits_shift. cbn [popcount].
  rewrite IH, Z.bit0_mod. reflexivity.
Qed.

Lemma count_set_bits_range n x : 0 <= count_set_bits n x <= Z.of_nat n.
Proof.
  induction n as [| n IH]; cbn [count_set_bits]; [lia |].
  destruct (Z.testbit x (Z.of_nat n)); cbn [Z.b2z]; lia.
Qed.

(** X15: [bits_set] is the population count.  For every 32-bit word it
    returns the number of positions [i < 32] at which the word has a set
    bit; the result lies between 0 and 32. *)
Theorem bits_set_counts_bits (x : Z) :
  0 <= x < 4294967296 ->
  pool_set.bits_set x = count_set_bits 32 x /\
  0 <= pool_set.bits_set x <= 32.
Proof.
  intros Hx.
  assert (H : pool_set.bits_set x = count_set_bits 32 x).
  { rewrite bits_set_is_popcount by assumption.
    apply popcount_count_set_bits. }
  split; [exact H |]. rewrite H.
  pose proof (count_set_bits_range 32 x). lia.
Qed.

Lemma bits_set_counts_bits_witness :
  pool_set.bits_set 2863311530 = count_set_bits 32 2863311530 /\
  pool_set.bits_set 2863311530 = 16.
Proof.
  split; [| reflexivity].
  apply (bits_set_counts_bits 2863311530). lia.
Defined.

(** ** Interleavings of any number of callers *)

Section bounded_interleavings.

Variables PoolSize frag c0 r : Z.
Hypothesis cursor_non_null : 0 < c0.
Hypothesis cursor_in_arena : frag <= c0.
Hypothesis size_non_negative : 0 <= r.
Hypothesis size_fits_arena : r <= PoolSize.
Hypothesis arena_below_top : frag + 2 * PoolSize < 4294967296.





End bounded_interleavings.





(** ** [pool_set::init] *)










(** ** Handing out the blocks of an initialised pool set *)












(** ** The stores of [block_pool::init] and the buffer *)

Lemma thread_blocks_checked_inside buf bs N :
  4 <= bs -> 0 < buf -> buf + bs * N < 4294967296 ->
  forall n j m, 0 <= j -> j + Z.of_nat n < N ->
  thread_blocks_checked n buf (bs * N) bs j m
  = Some (block_pool.thread_blocks n buf bs j m).
Proof.
  intros Hbs Hbuf Hfit. pose proof (stride_bounds bs Hbs) as Hst.
  induction n as [| n IH]; intros j m Hj Hn; [reflexivity |].
  cbn [thread_blocks_checked block_pool.thread_blocks]. cbv zeta.
  assert (Hin : (buf <=? block_pool.block_addr buf bs j)
                && (block_pool.block_addr buf bs j + 4 <=? buf + bs * N)
                = true).
  { rewrite (block_addr_value buf bs N j) by (assumption || lia).
    apply andb_true_intro. split; [apply Z.leb_le | apply Z.leb_le]; nia. }
  rewrite Hin. apply IH; lia.
Qed.

(** X19: the stores of [init] and the buffer they go to.  With at least one
    block (blocks of at least 4 bytes, in a non-null buffer that ends below
    the top of the address space) every link word that the loop of [init]
    writes lies inside the buffer.  With [block_count = 0] the loop bound
    [block_count - 1] is computed in [u32] and wraps to [2^32 - 1], so the
    loop is entered, and its first store, to [buffer[0]], lies outside the
    buffer of zero bytes. *)
Theorem init_stores_in_buffer (bs N buf : Z) (m : memory.t) :
  4 <= bs -> 0 < buf -> 0 <= N -> buf + bs * N < 4294967296 ->
  (1 <= N -> init_checked bs N buf m = Some (block_pool.init bs N buf m)) /\
  (N = 0 ->
   word.wrap (N - 1) = 4294967295 /\ init_checked bs N buf m = None).
Proof.
  intros Hbs Hbuf HN Hfit. split.
  - intros H1. unfold init_checked, block_pool.init. cbv zeta.
    assert (HbsN : N < 4294967296) by nia.
    rewrite (wrap_small (N - 1)) by lia.
    rewrite (wrap_small (bs * N)) by nia.
    rewrite (thread_blocks_checked_inside buf bs N Hbs Hbuf Hfit) by lia.
    reflexivity.
  - intros ->. split; [reflexivity |].
    unfold init_checked. cbv zeta.
    change (word.wrap (0 - 1)) with 4294967295.
    rewrite Z.mul_0_r. change (word.wrap 0) with 0.
    destruct (Z.to_nat 4294967295) as [| n] eqn:E; [lia |].
    cbn [thread_blocks_checked]. cbv zeta.
    assert (Hfirst : block_pool.block_addr buf bs 0 = buf).
    { unfold block_pool.block_addr, word.index32.
      rewrite Z.mul_0_l. change (word.wrap 0) with 0.
      rewrite Z.mul_0_r, Z.add_0_r. apply wrap_small. lia. }
    rewrite Hfirst.
    replace (buf + 4 <=? buf + 0) with false
      by (symmetry; apply Z.leb_gt; lia).
    rewrite andb_false_r. reflexivity.
Qed.

Lemma init_stores_in_buffer_witness :
  init_checked 4 2 16 zero_memory = Some (block_pool.init 4 2 16 zero_memory) /\
  init_checked 4 0 16 zero_memory = None.
Proof.
  split.
  - apply (init_stores_in_buffer 4 2 16 zero_memory); lia.
  - apply (init_stores_in_buffer 4 0 16 zero_memory); lia.
Defined.

(** ** Release *)

Lemma count_occ_In_le (l : list Z) (x : Z) :
  In x l -> (1 <= count_occ Z.eq_dec l x)%nat.
Proof. intros H. apply (count_occ_In Z.eq_dec) in H. lia. Qed.

(** X20: [pool_set::release()] gives every pool's buffer to [delete []]
    twice.  [block_pool::release()] deletes the buffer without resetting the
    pointer, and [delete [] pools] then runs [~block_pool()], which finds
    the pointer non-null and deletes the same buffer again. *)
Theorem release_deletes_twice (ps : pool_set.t) (i : nat) (bp : block_pool.t) :
  pool_set.pools ps !! i = Some bp ->
  block_pool.buffer bp <> 0 ->
  pool_set.release ps !! i = Some (block_pool.buffer bp) /\
  (2 <= count_occ Z.eq_dec (pool_set.release ps) (block_pool.buffer bp))%nat.
Proof.
  intros Hi Hbuf.
  assert (Hloop : map block_pool.release (pool_set.pools ps) !! i
                  = Some (block_pool.buffer bp)).
  { rewrite list_lookup_fmap, Hi. reflexivity. }
  unfold pool_set.release. split.
  { rewrite lookup_app_l; [exact Hloop |].
    eapply lookup_lt_Some. exact Hloop. }
  rewrite count_occ_app.
  assert (H1 : In (block_pool.buffer bp)
                 (map block_pool.release (pool_set.pools ps))).
  { apply list_elem_of_In. eapply list_elem_of_lookup_2. exact Hloop. }
  assert (H2 : In (block_pool.buffer bp)
                 (flat_map block_pool.destructor (rev (pool_set.pools ps)))).
  { apply in_flat_map. exists bp. split.
    - rewrite <- in_rev. apply list_elem_of_In.
      eapply list_elem_of_lookup_2. exact Hi.
    - unfold block_pool.destructor.
      destruct (block_pool.buffer bp =? 0) eqn:E;
        [apply Z.eqb_eq in E; contradiction | left; reflexivity]. }
  apply count_occ_In_le in H1, H2. lia.
Qed.

Lemma release_deletes_twice_witness :
  (2 <= count_occ Z.eq_dec
          (pool_set.release (fixed_pool.the_pool_set small_arena)) 1000%Z)%nat.
Proof.
  destruct (release_deletes_twice (fixed_pool.the_pool_set small_arena) 0
              (block_pool.mk 4 3 1004 1000 1016)) as [_ H].
  - reflexivity.
  - cbn. lia.
  - exact H.
Defined.

Lemma bump_released PoolSize b alloc_bytes : forall fuel st,
  fixed_pool.bump PoolSize fuel (fixed_pool.set_released st b) alloc_bytes
  = match fixed_pool.bump PoolSize fuel st alloc_bytes with
    | Some (p, st') => Some (p, fixed_pool.set_released st' b)
    | None => None
    end.
Proof.
  induction fuel as [| fuel IH]; intros st; [reflexivity |].
  cbn [fixed_pool.bump]. cbv zeta.
  cbn [fixed_pool.set_released fixed_pool.next fixed_pool.frag_buffer].
  destruct (_ >? _); [reflexivity |].
  unfold fixed_pool.cas.
  cbn [fixed_pool.set_released fixed_pool.next fixed_pool.frag_buffer].
  rewrite Z.eqb_refl.
  destruct (fixed_pool.next st =? 0) eqn:E; [| reflexivity].
  apply (IH (fixed_pool.set_next st _)).
Qed.

(** X21: [alloc] never looks at [released].  On a released allocator a
    call returns the pointer it would have returned before [release()],
    makes the same outside calls and changes the state in the same way; in
    particular a size-classed request is still answered from a pool whose
    buffer [release()] has handed to [delete []]. *)
Theorem alloc_ignores_release (PoolSize : Z) (fuel : nat) (heap_ptr : Z)
    (st : fixed_pool.globals) (bytes : Z) (type : pool_type.en)
    (p : Z) (st' : fixed_pool.globals) (evs : list event) :
  fixed_pool.alloc PoolSize fuel heap_ptr st bytes type = Some (p, st', evs) ->
  fixed_pool.alloc PoolSize fuel heap_ptr (fst (fixed_pool.release st))
    bytes type
  = Some (p, fixed_pool.set_released st' true, evs) /\
  (forall i bp,
     pool_set.pools (fixed_pool.the_pool_set st) !! i = Some bp ->
     In (ev_delete (block_pool.buffer bp)) (snd (fixed_pool.release st))).
Proof.
  intros Halloc. split.
  - unfold fixed_pool.release. cbn [fst].
    unfold fixed_pool.alloc in *.
    destruct (pool_type.eqb pool_type.logarithmic type).
    + cbn [fixed_pool.set_released fixed_pool.the_pool_set fixed_pool.mem].
      destruct (pool_set.alloc _ _ _) as [q ps].
      cbn [fixed_pool.set_pools fixed_pool.debug] in *.
      destruct (pool_type.eqb pool_type.heap type || (q =? 0));
        injection Halloc as <- <- <-; reflexivity.
    + destruct (pool_type.eqb pool_type.fixed type
                && (word.align4 bytes <=? PoolSize)).
      * rewrite bump_released.
        destruct (fixed_pool.bump PoolSize fuel st (word.align4 bytes))
          as [[q st1] |]; [| discriminate].
        cbn [fixed_pool.set_released fixed_pool.debug].
        destruct (pool_type.eqb pool_type.heap type || (q =? 0));
          injection Halloc as <- <- <-; reflexivity.
      * cbn [fixed_pool.set_released fixed_pool.debug] in *.
        destruct (pool_type.eqb pool_type.heap type || (0 =? 0));
          injection Halloc as <- <- <-; reflexivity.
  - intros i bp Hi. unfold fixed_pool.release. cbn [snd].
    apply in_or_app. left. apply in_map.
    unfold pool_set.release. apply in_or_app. left.
    apply (in_map block_pool.release).
    apply list_elem_of_In. eapply list_elem_of_lookup_2. exact Hi.
Qed.

Lemma alloc_ignores_release_witness :
  fixed_pool.alloc 1024 1 7777 (fst (fixed_pool.release small_arena))
    4 pool_type.logarithmic
  = Some (1004,
          fixed_pool.set_released
            (fixed_pool.set_pools small_arena
               (pool_set.mk [block_pool.mk 4 2 1008 1000 1016])
               (fixed_pool.mem small_arena)) true,
          [ev_log " Log " 4 1004 "succeeded" ""]) /\
  In (ev_delete 1000) (snd (fixed_pool.release small_arena)).
Proof.
  destruct (alloc_ignores_release 1024 1 7777 small_arena 4
              pool_type.logarithmic 1004
              (fixed_pool.set_pools small_arena
                 (pool_set.mk [block_pool.mk 4 2 1008 1000 1016])
                 (fixed_pool.mem small_arena))
              [ev_log " Log " 4 1004 "succeeded" ""]) as [H1 H2].
  - reflexivity.
  - split; [exact H1 |].
    apply (H2 0%nat (block_pool.mk 4 3 1004 1000 1016)). reflexivity.
Defined.

(** ** Arena-direct requests of no bytes *)

Lemma set_next_same st : fixed_pool.set_next st (fixed_pool.next st) = st.
Proof. destruct st; reflexivity. Qed.

(** X22: with a non-null cursor inside an arena that ends below the top of
    the address space, an arena-direct request whose rounded size is 0 is
    served from the arena without moving the cursor: it returns the cursor
    itself, does not call [malloc] (the diagnostic trace, if enabled, is
    all it emits) and leaves the state as it is, so the same address is
    returned again by the next request.  When the arena is full that
    address is its end, which [dealloc] does not count as inside the arena:
    it passes the address, which never came from [malloc], to [free]. *)
Theorem zero_size_arena_request (PoolSize : Z) (fuel : nat) (heap_ptr : Z)
    (st : fixed_pool.globals) (bytes : Z) :
  word.align4 bytes = 0 ->
  0 < fixed_pool.frag_buffer st <= fixed_pool.next st ->
  fixed_pool.next st <= fixed_pool.frag_buffer st + PoolSize ->
  fixed_pool.frag_buffer st + PoolSize < 4294967296 ->
  exists trace,
    fixed_pool.alloc PoolSize (S fuel) heap_ptr st bytes pool_type.fixed
      = Some (fixed_pool.next st, st, trace) /\
    Forall (fun e => is_malloc e = false) trace /\
    (fixed_pool.next st = fixed_pool.frag_buffer st + PoolSize ->
     fixed_pool.dealloc PoolSize st (fixed_pool.next st)
       = Done (st, [ev_free (fixed_pool.next st)])).
Proof.
  intros Hzero Hcur Hend Htop.
  assert (Htier :
    (if pool_type.eqb pool_type.logarithmic pool_type.fixed then
       let '(p, ps) :=
         pool_set.alloc (fixed_pool.the_pool_set st) (fixed_pool.mem st)
           (word.align4 bytes) in
       Some (p, fixed_pool.set_pools st ps (fixed_pool.mem st))
     else if pool_type.eqb pool_type.fixed pool_type.fixed
             && (word.align4 bytes <=? PoolSize)
     then fixed_pool.bump PoolSize (S fuel) st (word.align4 bytes)
     else Some (0, st))
    = Some (fixed_pool.next st, st)).
  { cbn [pool_type.eqb andb]. rewrite Hzero.
    replace (0 <=? PoolSize) with true by (symmetry; apply Z.leb_le; lia).
    rewrite bump_once by lia. rewrite Z.add_0_r.
    rewrite (wrap_small (fixed_pool.next st)) by lia.
    rewrite (wrap_small (fixed_pool.frag_buffer st + PoolSize)) by lia.
    replace (fixed_pool.next st >? fixed_pool.frag_buffer st + PoolSize)
      with false by (symmetry; rewrite Z.gtb_ltb; apply Z.ltb_ge; lia).
    rewrite set_next_same. reflexivity. }
  rewrite (alloc_shape PoolSize (S fuel) heap_ptr st bytes pool_type.fixed
             _ _ Htier).
  assert (Hz : (fixed_pool.next st =? 0) = false) by (apply Z.eqb_neq; lia).
  cbv zeta. cbn [pool_type.eqb orb]. rewrite Hz. cbn [app].
  eexists. split; [reflexivity |]. split.
  - destruct (fixed_pool.debug st); repeat constructor.
  - intros Hfull. unfold fixed_pool.dealloc.
    rewrite (wrap_small (fixed_pool.frag_buffer st + PoolSize)) by lia.
    replace (fixed_pool.next st <? fixed_pool.frag_buffer st + PoolSize)
      with false by (symmetry; apply Z.ltb_ge; lia).
    rewrite andb_false_r. reflexivity.
Qed.

Lemma zero_size_arena_request_witness :
  fixed_pool.dealloc 0 empty_arena (fixed_pool.next empty_arena)
  = Done (empty_arena, [ev_free (fixed_pool.next empty_arena)]).
Proof.
  destruct (zero_size_arena_request 0 0 7777 empty_arena 0)
    as (trace & _ & _ & Hfree).
  - reflexivity.
  - cbn. lia.
  - cbn. lia.
  - cbn. lia.
  - apply Hfree. reflexivity.
Defined.
